(** * objdl: a loader for relocatable ELF objects (linker.c)

    Shallow embedding of [src/linker.c] and the properties of its
    specification.  The program is written for a 32-bit little-endian
    machine (i386: the relocations are R_386_*, and pointers are cast to
    [uint32_t]), so a pointer is a 32-bit number and every integer wraps
    modulo 2^32.

    Layout of the model:
    - the descriptor pool [sopool] and the two lists threaded through it
      by the [next] field are a list of records indexed by slot number;
      a [soinfo *] is [option nat] ([None] is NULL);
    - the memory that the code reaches through integer-cast pointers
      (the image, the symbol table, relocation entries, patch targets)
      is a flat partial byte map [heap];
    - the section header table and the section-name string table are
      transient arrays read from the file; they are kept as values;
    - system calls on the object file are recorded in a [trace];
    - a run ends by returning, by [exit], by an invalid memory access,
      or not at all: see [outcome].

    What the C text leaves open is made explicit: values read before
    they are assigned and the answers of [calloc] come from an [oracle];
    an access of the program to an address that is not mapped, or
    outside the section header table or the string table, is the
    outcome [Faulted]; [read] into memory that is not mapped stores the
    bytes up to the first such address, as the kernel does. *)

From Stdlib Require Import ZArith List String Ascii Bool Lia Permutation.
Import ListNotations.
Open Scope Z_scope.

(** ** 32-bit words and byte buffers *)

Definition wrap32 (x : Z) : Z := x mod 2 ^ 32.

(** Pointer plus byte offset. *)
Definition ptr_add (p n : Z) : Z := wrap32 (p + n).

(** Byte [k] of a word, least significant first. *)
Definition byte_of (v : Z) (k : Z) : Z := (v / 256 ^ k) mod 256.

(** Little-endian fields of a byte buffer (a struct read from the file). *)
Definition le16 (bs : list Z) (off : nat) : Z :=
  nth off bs 0 + 256 * nth (off + 1) bs 0.

Definition le32 (bs : list Z) (off : nat) : Z :=
  nth off bs 0 + 256 * nth (off + 1) bs 0
  + 65536 * nth (off + 2) bs 0 + 16777216 * nth (off + 3) bs 0.

(** ** Flat memory *)

Definition mem := Z -> option Z.

Definition load16 (m : mem) (a : Z) : option Z :=
  match m a, m (a + 1) with
  | Some b0, Some b1 => Some (b0 + 256 * b1)
  | _, _ => None
  end.

Definition load32 (m : mem) (a : Z) : option Z :=
  match m a, m (a + 1), m (a + 2), m (a + 3) with
  | Some b0, Some b1, Some b2, Some b3 =>
      Some (b0 + 256 * b1 + 65536 * b2 + 16777216 * b3)
  | _, _, _, _ => None
  end.

Definition store8 (m : mem) (a v : Z) : mem :=
  fun x => if x =? a then Some v else m x.

Definition mapped (m : mem) (a : Z) : bool :=
  match m a with Some _ => true | None => false end.

Definition store32 (m : mem) (a v : Z) : option mem :=
  if mapped m a && mapped m (a + 1) && mapped m (a + 2) && mapped m (a + 3)
  then Some (store8 (store8 (store8 (store8 m a (byte_of v 0))
                                    (a + 1) (byte_of v 1))
                            (a + 2) (byte_of v 2))
                    (a + 3) (byte_of v 3))
  else None.

(** [calloc]: a block of [n] zero bytes at [base]. *)
Definition map_zeroed (m : mem) (base n : Z) : mem :=
  fun x => if (base <=? x) && (x <? base + n) then Some 0 else m x.

(** What [read] does with its user buffer: bytes are copied in order and
    the copy stops at the first address that is not mapped. *)
Fixpoint copy_to_user (m : mem) (a : Z) (bs : list Z) : mem :=
  match bs with
  | [] => m
  | b :: r =>
      match m a with
      | Some _ => copy_to_user (store8 m a b) (a + 1) r
      | None => m
      end
  end.

(** ** ELF definitions ([<elf.h>], i386) *)

Definition ELFMAG0 : Z := 127.
Definition ELFMAG1 : Z := 69.
Definition ELFMAG2 : Z := 76.
Definition ELFMAG3 : Z := 70.
Definition ET_REL : Z := 1.

Definition SHT_PROGBITS : Z := 1.
Definition SHT_SYMTAB : Z := 2.
Definition SHT_STRTAB : Z := 3.
Definition SHT_RELA : Z := 4.
Definition SHT_NOBITS : Z := 8.
Definition SHT_REL : Z := 9.

Definition SHN_UNDEF : Z := 0.
Definition SHN_ABS : Z := 65521.

Definition R_386_32 : Z := 1.
Definition R_386_PC32 : Z := 2.

Definition ELF32_R_SYM (info : Z) : Z := Z.shiftr info 8.
Definition ELF32_R_TYPE (info : Z) : Z := Z.land info 255.

Definition sizeof_Ehdr : Z := 52.
Definition sizeof_Shdr : Z := 40.
Definition sizeof_Sym : Z := 16.
Definition sizeof_Rel : Z := 8.

(** Fields of [Elf32_Ehdr], read from the 52 bytes of the header. *)
Definition e_ident (hdr : list Z) (k : nat) : Z := nth k hdr 0.
Definition e_type (hdr : list Z) : Z := le16 hdr 16.
Definition e_shoff (hdr : list Z) : Z := le32 hdr 32.
Definition e_shnum (hdr : list Z) : Z := le16 hdr 48.
Definition e_shstrndx (hdr : list Z) : Z := le16 hdr 50.

Record Elf32_Shdr : Type := mkShdr {
  sh_name : Z;
  sh_type : Z;
  sh_flags : Z;
  sh_addr : Z;
  sh_offset : Z;
  sh_size : Z;
  sh_link : Z;
  sh_info : Z;
  sh_addralign : Z;
  sh_entsize : Z
}.

Definition parse_shdr (bs : list Z) : Elf32_Shdr :=
  mkShdr (le32 bs 0) (le32 bs 4) (le32 bs 8) (le32 bs 12) (le32 bs 16)
         (le32 bs 20) (le32 bs 24) (le32 bs 28) (le32 bs 32) (le32 bs 36).

Fixpoint parse_sechdrs (n : nat) (bs : list Z) : list Elf32_Shdr :=
  match n with
  | O => []
  | S k => parse_shdr (firstn 40 bs) :: parse_sechdrs k (skipn 40 bs)
  end.

(** Offsets of the fields of [Elf32_Sym] and [Elf32_Rel]. *)
Definition st_name_off : Z := 0.
Definition st_value_off : Z := 4.
Definition st_shndx_off : Z := 14.
Definition r_offset_off : Z := 0.
Definition r_info_off : Z := 4.

(** ** Loader state *)

(** The fields of [soinfo] that linker.c touches. *)
Record soinfo : Type := mkSoinfo {
  so_name : string;
  so_next : option nat;
  so_flags : Z;
  so_image : Z;
  so_ba_index : Z;
  so_refcount : Z
}.

Definition SO_MAX : nat := 64.

(** The messages of the ERROR macro, one constructor per call site. *)
Inductive diag : Type :=
| NameTooLong (name : string)
| TooManyLibraries (name : string)
| NotInSolist (name : string)
| LseekFailed
| ReadFailed
| ErrorObjectFileType
| NotValidElf (name : string)
| NoMemory
| UnknownSymbol (name : list Z)
| UnsupportedRelocation (kind : Z)
| RecursiveLink (name : string).

(** Calls on the object file, and diagnostics.  [EvRead dst n] is
    [read(fd, dst, n)]; [dst] is [Some q] when the buffer is the heap
    address [q] and [None] for the loader's own transient buffers. *)
Inductive event : Type :=
| EvOpen (path : string)
| EvSeek (off : Z)
| EvRead (dst : option Z) (count : Z)
| EvClose
| EvError (d : diag).

Record world : Type := mkWorld {
  socount : nat;
  sopool : list soinfo;
  freelist : option nat;
  solist : option nat;
  heap : mem;
  openfile : option (list Z * Z);   (* contents and position of [fd] *)
  trace : list event                (* most recent first *)
}.

Definition set_socount (n : nat) (w : world) : world :=
  mkWorld n (sopool w) (freelist w) (solist w) (heap w) (openfile w) (trace w).
Definition set_sopool (p : list soinfo) (w : world) : world :=
  mkWorld (socount w) p (freelist w) (solist w) (heap w) (openfile w) (trace w).
Definition set_freelist (f : option nat) (w : world) : world :=
  mkWorld (socount w) (sopool w) f (solist w) (heap w) (openfile w) (trace w).
Definition set_solist (s : option nat) (w : world) : world :=
  mkWorld (socount w) (sopool w) (freelist w) s (heap w) (openfile w) (trace w).
Definition set_heap (m : mem) (w : world) : world :=
  mkWorld (socount w) (sopool w) (freelist w) (solist w) m (openfile w) (trace w).
Definition set_openfile (f : option (list Z * Z)) (w : world) : world :=
  mkWorld (socount w) (sopool w) (freelist w) (solist w) (heap w) f (trace w).
Definition log (e : event) (w : world) : world :=
  mkWorld (socount w) (sopool w) (freelist w) (solist w) (heap w) (openfile w)
          (e :: trace w).

(** The static initialisers: an all-zero pool and two empty lists. *)
Definition zero_soinfo : soinfo := mkSoinfo EmptyString None 0 0 0 0.

Definition initial_world (m : mem) : world :=
  mkWorld 0 (repeat zero_soinfo SO_MAX) None None m None [].

(** ** Outcomes of a run *)

Inductive outcome (A : Type) : Type :=
| Done (a : A) (w : world)        (* the call returns [a] *)
| Exited (status : Z) (w : world) (* [exit(status)]: the process is gone *)
| Faulted                         (* access outside any object *)
| Spins.                          (* the loop does not end *)

Arguments Done {A} a w.
Arguments Exited {A} status w.
Arguments Faulted {A}.
Arguments Spins {A}.

Definition M (A : Type) : Type := world -> outcome A.

Definition ret {A} (a : A) : M A := fun w => Done a w.

Definition bind {A B} (c : M A) (k : A -> M B) : M B :=
  fun w =>
    match c w with
    | Done a w' => k a w'
    | Exited s w' => Exited s w'
    | Faulted => Faulted
    | Spins => Spins
    end.

Notation "x <- c ;; k" := (bind c (fun x => k))
  (at level 61, c at next level, right associativity).
Notation "c ;;; k" := (bind c (fun _ => k))
  (at level 61, right associativity).

Definition ERROR (d : diag) : M unit := fun w => Done tt (log (EvError d) w).

Definition fault {A} : M A := fun _ => Faulted.

(** A heap access made by the program itself. *)
Definition rd16 (a : Z) : M Z :=
  fun w => match load16 (heap w) a with Some v => Done v w | None => Faulted end.
Definition rd32 (a : Z) : M Z :=
  fun w => match load32 (heap w) a with Some v => Done v w | None => Faulted end.
Definition wr32 (a v : Z) : M unit :=
  fun w => match store32 (heap w) a v with
           | Some m => Done tt (set_heap m w)
           | None => Faulted
           end.

(** [l[i] := x]. *)
Fixpoint upd {A} (i : nat) (x : A) (l : list A) : list A :=
  match l, i with
  | [], _ => []
  | _ :: t, O => x :: t
  | h :: t, S k => h :: upd k x t
  end.

Definition set_next (nx : option nat) (d : soinfo) : soinfo :=
  mkSoinfo (so_name d) nx (so_flags d) (so_image d) (so_ba_index d)
           (so_refcount d).
Definition set_image (img : Z) (d : soinfo) : soinfo :=
  mkSoinfo (so_name d) (so_next d) (so_flags d) img (so_ba_index d)
           (so_refcount d).

(** An entry of the master symbol table ([struct dl_symbol]; the [next]
    link is the order of the list). *)
Record dl_symbol : Type := mkDlSymbol {
  dl_value : Z;
  dl_name : list Z
}.

Fixpoint bytes_eqb (a b : list Z) : bool :=
  match a, b with
  | [], [] => true
  | x :: a', y :: b' => (x =? y) && bytes_eqb a' b'
  | _, _ => false
  end.

(** The C string that starts at [tbl + off]: its bytes up to the NUL, or
    [None] when the table ends first. *)
Fixpoint cstring_from (tbl : list Z) : option (list Z) :=
  match tbl with
  | [] => None
  | b :: r =>
      if b =? 0 then Some []
      else match cstring_from r with
           | Some s => Some (b :: s)
           | None => None
           end
  end.

Definition cstring_at (tbl : list Z) (off : Z) : option (list Z) :=
  if off <? 0 then None else cstring_from (skipn (Z.to_nat off) tbl).

(** [strcmp(tbl + off, lit) == 0] for a literal without NUL bytes.  The
    comparison stops at the first difference; [None] when it runs past
    the end of the table before that. *)
Fixpoint strcmp_from (tbl lit : list Z) : option bool :=
  match tbl with
  | [] => None
  | b :: r =>
      match lit with
      | [] => Some (b =? 0)
      | c :: l => if b =? c then strcmp_from r l else Some false
      end
  end.

Definition strcmp_at (tbl : list Z) (off : Z) (lit : list Z) : option bool :=
  if off <? 0 then None else strcmp_from (skipn (Z.to_nat off) tbl) lit.

Definition dot_data : list Z := [46; 100; 97; 116; 97].
Definition dot_text : list Z := [46; 116; 101; 120; 116].

(** [!strcmp(sname, ".data") || !strcmp(sname, ".text")] *)
Definition is_data_or_text (shstrtbl : list Z) (p : Elf32_Shdr) : option bool :=
  match strcmp_at shstrtbl (sh_name p) dot_data with
  | None => None
  | Some true => Some true
  | Some false => strcmp_at shstrtbl (sh_name p) dot_text
  end.

(** What the loader cannot control in one call of [load_library]: the
    bytes that lie in [hdr] and in [err] before they are assigned, and
    the answers of [calloc]. *)
Record oracle : Type := mkOracle {
  hdr_garbage : list Z;
  err_garbage : Z;
  calloc_sechdrs : bool;
  calloc_shstrtbl : bool;
  calloc_image : option Z
}.

Section Linker.

(** [linker.h] is not among the sources: its constants are parameters. *)
Variable SOINFO_NAME_LEN : nat.
Variable FLAG_LINKED FLAG_ERROR : Z.

(** The file system as the path search sees it: [fs path] is the
    contents of [path] when [stat] finds a regular file there and [open]
    succeeds. *)
Variable fs : string -> option (list Z).

(** [resolve_symbol] has an empty body in linker.c (a comment "to do"
    and no [return]): the source does not fix what a call of it
    yields.  What it returns for a name (an entry, or NULL) is a
    parameter. *)
Variable resolve_symbol : list Elf32_Shdr -> list Z -> option dl_symbol.

(** ** The descriptor pool *)

(** [freelist = sopool + socount++; freelist->next = NULL;] *)
Definition carve_slot : M unit :=
  fun w =>
    match nth_error (sopool w) (socount w) with
    | None => Faulted
    | Some d =>
        Done tt
          (set_sopool (upd (socount w) (set_next None d) (sopool w))
             (set_freelist (Some (socount w))
                (set_socount (S (socount w)) w)))
    end.

(** [si = freelist; freelist = freelist->next;] and the initialisation
    of [*si]: [memset] to zero, the name, [ba_index = -1]. *)
Definition take_free (name : string) : M (option nat) :=
  fun w =>
    match freelist w with
    | None => Faulted
    | Some si =>
        match nth_error (sopool w) si with
        | None => Faulted
        | Some d =>
            Done (Some si)
                 (set_sopool
                    (upd si (mkSoinfo name None 0 0 (-1) 0) (sopool w))
                    (set_freelist (so_next d) w))
        end
    end.

Definition alloc_info (name : string) : M (option nat) :=
  fun w =>
    if (SOINFO_NAME_LEN <=? String.length name)%nat then
      (ERROR (NameTooLong name) ;;; ret None) w
    else
      match freelist w with
      | None =>
          if (socount w =? SO_MAX)%nat
          then (ERROR (TooManyLibraries name) ;;; ret None) w
          else (carve_slot ;;; take_free name) w
      | Some _ => take_free name w
      end.

(** The loop of [free_info]: the values of [trav] and [prev] when it is
    left.  A list that is longer than the pool has a cycle. *)
Fixpoint scan_solist (fuel : nat) (pool : list soinfo) (si : nat)
    (trav prev : option nat) : M (option nat * option nat) :=
  match fuel with
  | O => fun _ => Spins
  | S k =>
      match trav with
      | None => ret (None, prev)
      | Some t =>
          if (t =? si)%nat then ret (Some t, prev)
          else match nth_error pool t with
               | None => fault
               | Some d => scan_solist k pool si (so_next d) (Some t)
               end
      end
  end.

Definition free_info (si : nat) : M unit :=
  fun w =>
    (r <- scan_solist (S SO_MAX) (sopool w) si (solist w) None ;;
     match r with
     | (None, _) =>
         (* si was not in solist *)
         match nth_error (sopool w) si with
         | None => fault
         | Some d => ERROR (NotInSolist (so_name d))
         end
     | (Some _, None) => fault        (* prev->next with prev == NULL *)
     | (Some _, Some prev) =>
         fun w0 =>
           match nth_error (sopool w0) si, nth_error (sopool w0) prev with
           | Some d, Some dp =>
               let pool1 := upd prev (set_next (so_next d) dp) (sopool w0) in
               match nth_error pool1 si with
               | Some d1 =>
                   Done tt
                     (set_freelist (Some si)
                        (set_sopool
                           (upd si (set_next (freelist w0) d1) pool1) w0))
               | None => Faulted
               end
           | _, _ => Faulted
           end
     end) w.

(** ** Opening and reading the object file

    [stat] is a query on a path and is not recorded; [open], [lseek],
    [read] and [close] are. *)

Definition _open_lib (name : string) : M bool :=
  fun w =>
    match fs name with
    | Some data => Done true (log (EvOpen name) (set_openfile (Some (data, 0)) w))
    | None => Done false w
    end.

Definition starts_with_slash (name : string) : bool :=
  match name with
  | String c _ => Ascii.eqb c "/"
  | EmptyString => false
  end.

(** [sopaths] is the single directory ".". *)
Definition open_library (name : string) : M bool :=
  if (256 <? String.length name)%nat then ret false
  else
    fd <- (if starts_with_slash name then _open_lib name else ret false) ;;
    if fd then ret true else _open_lib ("./" ++ name).

(** [lseek(fd, off, SEEK_SET)] for an unsigned 32-bit [off]: [off_t] is a
    signed 32-bit [long], so an offset from 2^31 on is negative and the
    call fails, leaving the position where it was. *)
Definition lseek (off : Z) : M Z :=
  fun w =>
    match openfile w with
    | Some (data, _) =>
        if off <? 2 ^ 31
        then Done off (log (EvSeek off) (set_openfile (Some (data, off)) w))
        else Done (-1) (log (EvSeek off) w)
    | None => Done (-1) (log (EvSeek off) w)
    end.

(** How many of the bytes [copy_to_user] stores. *)
Fixpoint copied (m : mem) (a : Z) (bs : list Z) : nat :=
  match bs with
  | [] => O
  | _ :: r => if mapped m a then S (copied m (a + 1) r) else O
  end.

(** [read(fd, dst, count)]: the bytes the file has from the current
    position, at most [count]; the result is the bytes transferred. *)
Definition read (dst : option Z) (count : Z) : M (list Z) :=
  fun w =>
    match openfile w with
    | Some (data, pos) =>
        let bs := firstn (Z.to_nat count) (skipn (Z.to_nat pos) data) in
        match dst with
        | None =>
            Done bs (log (EvRead dst count)
                       (set_openfile (Some (data, pos + Z.of_nat (List.length bs))) w))
        | Some q =>
            let got := firstn (copied (heap w) q bs) bs in
            Done got
                 (log (EvRead dst count)
                    (set_openfile (Some (data, pos + Z.of_nat (List.length got)))
                       (set_heap (copy_to_user (heap w) q bs) w)))
        end
    | None => Done [] (log (EvRead dst count) w)
    end.

Definition close : M unit :=
  fun w => Done tt (log EvClose (set_openfile None w)).

Definition exit {A} (status : Z) : M A := fun w => Exited status w.

Definition verify_elf_object (hdr : list Z) (name : string) : M Z :=
  if negb (e_ident hdr 0 =? ELFMAG0) then ret (-1)
  else if negb (e_ident hdr 1 =? ELFMAG1) then ret (-1)
  else if negb (e_ident hdr 2 =? ELFMAG2) then ret (-1)
  else if negb (e_ident hdr 3 =? ELFMAG3) then ret (-1)
  else if negb (e_type hdr =? ET_REL)
       then ERROR ErrorObjectFileType ;;; ret (-1)
       else ret 0.

(** The results of [lseek] and [read] are not looked at. *)
Definition elf_loadsection (s : Elf32_Shdr) (q : Z) : M unit :=
  lseek (sh_offset s) ;;; read (Some q) (sh_size s) ;;; ret tt.

(** ** Symbol resolution *)

(** The body of the loop of [update_symbols] for [sym[i]]. *)
Definition update_symbol (sechdrs : list Elf32_Shdr) (sym : Z)
    (strtab : list Z) (i : Z) : M unit :=
  let e := sizeof_Sym * i in
  st_shndx <- rd16 (ptr_add sym (e + st_shndx_off)) ;;
  if st_shndx =? SHN_UNDEF then
    st_name <- rd32 (ptr_add sym (e + st_name_off)) ;;
    match cstring_at strtab st_name with
    | None => fault
    | Some name =>
        match resolve_symbol sechdrs name with
        | Some dlsym => wr32 (ptr_add sym (e + st_value_off)) (dl_value dlsym)
        | None => ERROR (UnknownSymbol name) ;;; exit (-1)
        end
    end
  else if st_shndx =? SHN_ABS then ret tt
  else
    match nth_error sechdrs (Z.to_nat st_shndx) with
    | None => fault
    | Some s => wr32 (ptr_add sym (e + st_value_off)) (sh_addr s)
    end.

Fixpoint update_symbols_from (n : nat) (i : Z) (sechdrs : list Elf32_Shdr)
    (sym : Z) (strtab : list Z) : M unit :=
  match n with
  | O => ret tt
  | S k =>
      update_symbol sechdrs sym strtab i ;;;
      update_symbols_from k (i + 1) sechdrs sym strtab
  end.

(** [for (i = 1; i < num; i++)] *)
Definition update_symbols (sechdrs : list Elf32_Shdr) (symindex : nat)
    (strtab : list Z) : M unit :=
  match nth_error sechdrs symindex with
  | None => fault
  | Some s =>
      let sym := sh_addr s in
      let num := sh_size s / sizeof_Sym in
      update_symbols_from (Z.to_nat (num - 1)) 1 sechdrs sym strtab
  end.

(** ** Relocation *)

(** The body of the loop of [do_relocate] for [rel[i]]: 0, or -1 for a
    kind that is not supported. *)
Definition relocate_entry (sechdrs : list Elf32_Shdr) (symindex relsec : nat)
    (i : Z) : M Z :=
  match nth_error sechdrs relsec with
  | None => fault
  | Some rs =>
      let rel := sh_addr rs in
      match nth_error sechdrs (Z.to_nat (sh_info rs)),
            nth_error sechdrs symindex with
      | Some ts, Some ss =>
          r_offset <- rd32 (ptr_add rel (sizeof_Rel * i + r_offset_off)) ;;
          let where_ := ptr_add (sh_addr ts) r_offset in
          r_info <- rd32 (ptr_add rel (sizeof_Rel * i + r_info_off)) ;;
          let sym := ptr_add (sh_addr ss) (sizeof_Sym * ELF32_R_SYM r_info) in
          if ELF32_R_TYPE r_info =? R_386_32 then
            old <- rd32 where_ ;;
            st_value <- rd32 (ptr_add sym st_value_off) ;;
            wr32 where_ (wrap32 (old + st_value)) ;;;
            ret 0
          else if ELF32_R_TYPE r_info =? R_386_PC32 then
            old <- rd32 where_ ;;
            st_value <- rd32 (ptr_add sym st_value_off) ;;
            wr32 where_ (wrap32 (old + wrap32 (st_value - where_))) ;;;
            ret 0
          else
            ERROR (UnsupportedRelocation (ELF32_R_TYPE r_info)) ;;;
            ret (-1)
      | _, _ => fault
      end
  end.

Fixpoint do_relocate_from (n : nat) (i : Z) (sechdrs : list Elf32_Shdr)
    (symindex relsec : nat) : M Z :=
  match n with
  | O => ret 0
  | S k =>
      r <- relocate_entry sechdrs symindex relsec i ;;
      if r =? 0 then do_relocate_from k (i + 1) sechdrs symindex relsec
      else ret r
  end.

Definition do_relocate (sechdrs : list Elf32_Shdr) (symindex relsec : nat)
    : M Z :=
  match nth_error sechdrs relsec with
  | None => fault
  | Some rs =>
      do_relocate_from (Z.to_nat (sh_size rs / sizeof_Rel)) 0
                       sechdrs symindex relsec
  end.

(** ** Loading an object

    TRACE is the debugging macro of linker_debug.h and is left out.
    [totalsize] is an [int] to which unsigned sizes are added and which
    is then passed to [calloc] as a [size_t]: it is kept as the
    unsigned 32-bit pattern. *)

(** [lseek] to the start, [read] the header, [verify_elf_object]:
    [None] is [goto fail].  A short read leaves the rest of [hdr] as it
    was. *)
Definition read_header (o : oracle) (name : string) : M (option (list Z)) :=
  r <- lseek 0 ;;
  if r <? 0 then ERROR LseekFailed ;;; ret None
  else
    bs <- read None sizeof_Ehdr ;;
    let hdr := bs ++ skipn (List.length bs) (hdr_garbage o) in
    v <- verify_elf_object hdr name ;;
    if v <? 0 then ERROR (NotValidElf name) ;;; ret None
    else ret (Some hdr).

(** The section header table and the section-name string table. *)
Definition read_section_tables (o : oracle) (hdr : list Z)
    : M (option (list Elf32_Shdr * list Z)) :=
  if negb (calloc_sechdrs o) then ERROR NoMemory ;;; ret None
  else
    r <- lseek (e_shoff hdr) ;;
    if r <? 0 then ERROR LseekFailed ;;; ret None
    else
      let i := e_shnum hdr * sizeof_Shdr in
      bs <- read None i ;;
      if negb (Z.of_nat (List.length bs) =? i) then ERROR ReadFailed ;;; ret None
      else
        let sechdrs := parse_sechdrs (Z.to_nat (e_shnum hdr)) bs in
        (* p = sechdrs + hdr.e_shstrndx *)
        match nth_error sechdrs (Z.to_nat (e_shstrndx hdr)) with
        | None => fault
        | Some p =>
            if negb (calloc_shstrtbl o) then ERROR NoMemory ;;; ret None
            else
              r <- lseek (sh_offset p) ;;
              if r <? 0 then ERROR LseekFailed ;;; ret None
              else
                shstrtbl <- read None (sh_size p) ;;
                if negb (Z.of_nat (List.length shstrtbl) =? sh_size p)
                then ERROR ReadFailed ;;; ret None
                else ret (Some (sechdrs, shstrtbl))
        end.

(** The body of the first loop, on [(totalsize, symindex)]; [None] when
    [strcmp] runs off the string table. *)
Definition collect_section (shstrtbl : list Z) (i : nat) (p : Elf32_Shdr)
    (acc : Z * nat) : option (Z * nat) :=
  let totalsize := fst acc in
  let symindex := snd acc in
  if sh_type p =? SHT_PROGBITS then
    match is_data_or_text shstrtbl p with
    | None => None
    | Some true => Some (wrap32 (totalsize + sh_size p), symindex)
    | Some false => Some acc
    end
  else if sh_type p =? SHT_NOBITS then
    Some (wrap32 (totalsize + sh_size p), symindex)
  else if sh_type p =? SHT_SYMTAB then
    Some (wrap32 (totalsize + sh_size p), i)
  else if (sh_type p =? SHT_RELA) || (sh_type p =? SHT_REL) then
    match is_data_or_text shstrtbl p with
    | None => None
    | Some true => Some (wrap32 (totalsize + sh_size p), symindex)
    | Some false => Some acc
    end
  else Some acc.

Fixpoint collect_sections (shstrtbl : list Z) (ss : list Elf32_Shdr) (i : nat)
    (acc : Z * nat) : option (Z * nat) :=
  match ss with
  | [] => Some acc
  | p :: r =>
      match collect_section shstrtbl i p acc with
      | None => None
      | Some acc' => collect_sections shstrtbl r (S i) acc'
      end
  end.

(** The body of the second loop, before [q += p->sh_size]. *)
Definition load_section (shstrtbl : list Z) (p : Elf32_Shdr) (q : Z) : M unit :=
  if sh_type p =? SHT_PROGBITS then
    match is_data_or_text shstrtbl p with
    | None => fault
    | Some true => elf_loadsection p q
    | Some false => ret tt
    end
  else if (sh_type p =? SHT_NOBITS) || (sh_type p =? SHT_SYMTAB) then
    elf_loadsection p q
  else if (sh_type p =? SHT_RELA) || (sh_type p =? SHT_REL) then
    match is_data_or_text shstrtbl p with
    | None => fault
    | Some true => elf_loadsection p q ;;; elf_loadsection p q
    | Some false => ret tt
    end
  else ret tt.

(** The second loop; the result is the final [q]. *)
Fixpoint load_sections (shstrtbl : list Z) (ss : list Elf32_Shdr) (q : Z)
    : M Z :=
  match ss with
  | [] => ret q
  | p :: r =>
      load_section shstrtbl p q ;;;
      load_sections shstrtbl r (ptr_add q (sh_size p))
  end.

(** The third loop, [n] sections from index [i] on; [true] is
    [goto fail].  [err] is only assigned for a section of type SHT_REL
    and is tested for every section. *)
Fixpoint relocate_sections (sechdrs : list Elf32_Shdr) (symindex : nat)
    (n i : nat) (err : Z) : M bool :=
  match n with
  | O => ret false
  | S k =>
      match nth_error sechdrs i with
      | None => fault
      | Some s =>
          err' <- (if sh_type s =? SHT_REL then do_relocate sechdrs symindex i
                   else ret err) ;;
          if negb (err' =? 0) then ret true
          else relocate_sections sechdrs symindex k (S i) err'
      end
  end.

(** The label [fail]. *)
Definition goto_fail (si : option nat) : M (option nat) :=
  match si with Some s => free_info s | None => ret tt end ;;;
  close ;;;
  ret None.

(** [q = si->image = calloc(1, totalsize)] *)
Definition calloc_for_image (o : oracle) (si : nat) (totalsize : Z)
    : M (option Z) :=
  fun w =>
    match nth_error (sopool w) si with
    | None => Faulted
    | Some d =>
        match calloc_image o with
        | None => Done None (set_sopool (upd si (set_image 0 d) (sopool w)) w)
        | Some q =>
            Done (Some q)
                 (set_heap (map_zeroed (heap w) q totalsize)
                    (set_sopool (upd si (set_image q d) (sopool w)) w))
        end
    end.

(** From the first loop to the end of [load_library]. *)
Definition link_sections (o : oracle) (hdr : list Z) (si : nat)
    (sechdrs : list Elf32_Shdr) (shstrtbl : list Z) : M (option nat) :=
  match collect_sections shstrtbl sechdrs 0 (0, 0%nat) with
  | None => fault
  | Some (totalsize, symindex) =>
      img <- calloc_for_image o si totalsize ;;
      match img with
      | None => ERROR NoMemory ;;; goto_fail (Some si)
      | Some q =>
          load_sections shstrtbl sechdrs q ;;;
          update_symbols sechdrs symindex shstrtbl ;;;
          failed <- relocate_sections sechdrs symindex
                      (Z.to_nat (e_shnum hdr - 1)) 1 (err_garbage o) ;;
          if failed then goto_fail (Some si)
          else close ;;; ret (Some si)
      end
  end.

Definition load_library (o : oracle) (name : string) : M (option nat) :=
  fd <- open_library name ;;
  if negb fd then ret None
  else
    h <- read_header o name ;;
    match h with
    | None => goto_fail None
    | Some hdr =>
        si <- alloc_info name ;;
        match si with
        | None => goto_fail None
        | Some s =>
            t <- read_section_tables o hdr ;;
            match t with
            | None => goto_fail (Some s)
            | Some (sechdrs, shstrtbl) =>
                link_sections o hdr s sechdrs shstrtbl
            end
        end
    end.

(** The loop of [find_library]: [Some r] when it returns [r] from inside
    the loop, [None] when the name is not in [solist]. *)
Fixpoint find_in_solist (fuel : nat) (name : string) (si : option nat)
    : M (option (option nat)) :=
  match fuel with
  | O => fun _ => Spins
  | S k =>
      match si with
      | None => ret None
      | Some i =>
          fun w =>
            match nth_error (sopool w) i with
            | None => Faulted
            | Some d =>
                if String.eqb name (so_name d) then
                  if negb (Z.land (so_flags d) FLAG_ERROR =? 0)
                  then Done (Some None) w
                  else if negb (Z.land (so_flags d) FLAG_LINKED =? 0)
                  then Done (Some (Some i)) w
                  else (ERROR (RecursiveLink (so_name d)) ;;; ret (Some None)) w
                else find_in_solist k name (so_next d) w
            end
      end
  end.

Definition find_library (o : oracle) (name : string) : M (option nat) :=
  fun w =>
    (r <- find_in_solist (S SO_MAX) name (solist w) ;;
     match r with
     | Some si => ret si
     | None => load_library o name
     end) w.

End Linker.

(** ** Lists threaded through the pool *)

(** [is_list pool head l]: following [next] from [head] visits the
    slots [l] in order and then reaches NULL. *)
Inductive is_list (pool : list soinfo) : option nat -> list nat -> Prop :=
| is_list_nil : is_list pool None []
| is_list_cons i d l :
    nth_error pool i = Some d ->
    is_list pool (so_next d) l ->
    is_list pool (Some i) (i :: l).

(** The same walk as a function; [None] when it does not reach NULL
    within [fuel] steps or leaves the pool. *)
Fixpoint walk (fuel : nat) (pool : list soinfo) (head : option nat)
    : option (list nat) :=
  match fuel with
  | O => None
  | S k =>
      match head with
      | None => Some []
      | Some i =>
          match nth_error pool i with
          | None => None
          | Some d =>
              match walk k pool (so_next d) with
              | Some l => Some (i :: l)
              | None => None
              end
          end
      end
  end.

(** [w'] is [w] up to the open file and the trace. *)
Definition same_loader (w w' : world) : Prop :=
  socount w' = socount w /\ sopool w' = sopool w /\
  freelist w' = freelist w /\ solist w' = solist w /\ heap w' = heap w.

(** The sections that make up the image: the cases of the two [switch]
    statements of [load_library] in which the first loop adds the size
    of [p] to [totalsize] and the second calls [elf_loadsection] for it.
    [None] when [strcmp] runs off the string table. *)
Definition included (shstrtbl : list Z) (p : Elf32_Shdr) : option bool :=
  if sh_type p =? SHT_PROGBITS then is_data_or_text shstrtbl p
  else if (sh_type p =? SHT_NOBITS) || (sh_type p =? SHT_SYMTAB) then Some true
  else if (sh_type p =? SHT_RELA) || (sh_type p =? SHT_REL)
       then is_data_or_text shstrtbl p
       else Some false.

(** What a section adds to [totalsize]. *)
Definition included_size (shstrtbl : list Z) (p : Elf32_Shdr) : Z :=
  match included shstrtbl p with
  | Some true => sh_size p
  | _ => 0
  end.

(** The two lists are proper lists of carved slots and have no slot in
    common. *)
Definition lists_ok (w : world) : Prop :=
  List.length (sopool w) = SO_MAX /\
  (socount w <= SO_MAX)%nat /\
  exists lf la,
    is_list (sopool w) (freelist w) lf /\
    is_list (sopool w) (solist w) la /\
    NoDup (lf ++ la) /\
    forall i, In i (lf ++ la) -> (i < socount w)%nat.

(** The value of [prev] when the loop of [free_info] has passed [l1]. *)
Definition last_of (l1 : list nat) (prev : option nat) : option nat :=
  match rev l1 with
  | [] => prev
  | p :: _ => Some p
  end.

(** [w'] has the pool and the two lists of [w]. *)
Definition same_pool (w w' : world) : Prop :=
  socount w' = socount w /\ sopool w' = sopool w /\
  freelist w' = freelist w /\ solist w' = solist w.

(** [R] holds between the world in which [c] starts and the world in
    which it returns or exits. *)
Definition preserves {A} (R : world -> world -> Prop) (c : M A) : Prop :=
  forall w,
    match c w with
    | Done _ w' | Exited _ w' => R w w'
    | _ => True
    end.

(** The world in which a run stops. *)
Definition world_of {A} (r : outcome A) (d : world) : world :=
  match r with
  | Done _ w => w
  | Exited _ w => w
  | _ => d
  end.

(** ** Sample objects *)

Module Sample.

Definition enc16 (v : Z) : list Z := [byte_of v 0; byte_of v 1].
Definition enc32 (v : Z) : list Z :=
  [byte_of v 0; byte_of v 1; byte_of v 2; byte_of v 3].

(** An i386 ELF header of type [ty] with the section header table at
    [shoff]. *)
Definition enc_ehdr (ty shoff shnum shstrndx : Z) : list Z :=
  [127; 69; 76; 70; 1; 1; 1; 0; 0; 0; 0; 0; 0; 0; 0; 0]
  ++ enc16 ty ++ enc16 3 ++ enc32 1 ++ enc32 0 ++ enc32 0 ++ enc32 shoff
  ++ enc32 0 ++ enc16 52 ++ enc16 0 ++ enc16 0 ++ enc16 40 ++ enc16 shnum
  ++ enc16 shstrndx.

Definition enc_shdr (s : Elf32_Shdr) : list Z :=
  enc32 (sh_name s) ++ enc32 (sh_type s) ++ enc32 (sh_flags s)
  ++ enc32 (sh_addr s) ++ enc32 (sh_offset s) ++ enc32 (sh_size s)
  ++ enc32 (sh_link s) ++ enc32 (sh_info s) ++ enc32 (sh_addralign s)
  ++ enc32 (sh_entsize s).

Definition enc_sym (name value size info other shndx : Z) : list Z :=
  enc32 name ++ enc32 value ++ enc32 size ++ [info; other] ++ enc16 shndx.

Definition null_shdr : Elf32_Shdr := mkShdr 0 0 0 0 0 0 0 0 0 0.

(** A block of bytes at [base] on top of [m]. *)
Definition mem_block (base : Z) (bs : list Z) (m : mem) : mem :=
  fun a =>
    if (base <=? a) && (a <? base + Z.of_nat (List.length bs))
    then nth_error bs (Z.to_nat (a - base))
    else m a.

Definition no_mem : mem := fun _ => None.

Definition garbage0 : list Z := repeat 0 52.

(** The values of linker.h in the Android linker, from which linker.c
    derives. *)
Definition SOINFO_NAME_LEN : nat := 128.
Definition FLAG_LINKED : Z := 1.
Definition FLAG_ERROR : Z := 2.

(** [calloc] succeeds and returns [base] for the image; [hdr] and [err]
    hold zeros before they are assigned. *)
Definition oracle_at (base : Z) : oracle :=
  mkOracle garbage0 0 true true (Some base).

(** One file, [name] in the current directory. *)
Definition one_file (name : string) (data : list Z) (path : string)
    : option (list Z) :=
  if String.eqb path ("./" ++ name) then Some data else None.

Definition text16 : list Z :=
  [85; 137; 229; 184; 42; 0; 0; 0; 93; 195; 144; 144; 144; 144; 144; 144].

Definition data8 : list Z := [209; 210; 211; 212; 213; 214; 215; 216].

(** An object with the sections (null), .text (16 bytes) and
    .shstrtab. *)
Definition shstrtab_text : list Z :=
  [0; 46; 116; 101; 120; 116; 0;
   46; 115; 104; 115; 116; 114; 116; 97; 98; 0].

Definition obj_text : list Z :=
  enc_ehdr ET_REL 85 3 2 ++ text16 ++ shstrtab_text
  ++ enc_shdr null_shdr
  ++ enc_shdr (mkShdr 1 SHT_PROGBITS 6 0 52 16 0 0 4 0)
  ++ enc_shdr (mkShdr 7 SHT_STRTAB 0 0 68 17 0 0 1 0).

(** An object with the sections (null), .text (16 bytes), .bss (NOBITS,
    8 bytes) and .shstrtab.  As in the output of an assembler, the
    [sh_offset] of .bss is the file offset at which the contents of the
    next section begin. *)
Definition shstrtab_bss : list Z :=
  [0; 46; 116; 101; 120; 116; 0;
   46; 98; 115; 115; 0;
   46; 115; 104; 115; 116; 114; 116; 97; 98; 0].

Definition text_shdr : Elf32_Shdr := mkShdr 1 SHT_PROGBITS 6 0 52 16 0 0 4 0.
Definition bss_shdr : Elf32_Shdr := mkShdr 7 SHT_NOBITS 3 0 68 8 0 0 4 0.
Definition shstrtab_bss_shdr : Elf32_Shdr := mkShdr 12 SHT_STRTAB 0 0 68 22 0 0 1 0.

Definition obj_bss : list Z :=
  enc_ehdr ET_REL 90 4 3 ++ text16 ++ shstrtab_bss
  ++ enc_shdr null_shdr ++ enc_shdr text_shdr ++ enc_shdr bss_shdr
  ++ enc_shdr shstrtab_bss_shdr.

(** The world in which the second loop starts for [obj_bss]: the file
    is open and the image of 24 zero bytes lies at 4096. *)
Definition bss_world : world :=
  mkWorld 1 (upd 0 (mkSoinfo "x" None 0 4096 (-1) 0) (repeat zero_soinfo SO_MAX))
    None None (map_zeroed no_mem 4096 24) (Some (obj_bss, 90)) [].

(** An object with the sections (null), .text (16 bytes), .rodata (32
    bytes, which the loader does not include), .data (8 bytes) and
    .shstrtab. *)
Definition shstrtab_rodata : list Z :=
  [0; 46; 116; 101; 120; 116; 0;
   46; 114; 111; 100; 97; 116; 97; 0;
   46; 100; 97; 116; 97; 0;
   46; 115; 104; 115; 116; 114; 116; 97; 98; 0].

Definition rodata32 : list Z := repeat 114 32.

Definition rodata_sechdrs : list Elf32_Shdr :=
  [ null_shdr;
    mkShdr 1 SHT_PROGBITS 6 0 52 16 0 0 4 0;
    mkShdr 7 SHT_PROGBITS 2 0 68 32 0 0 4 0;
    mkShdr 15 SHT_PROGBITS 3 0 100 8 0 0 4 0;
    mkShdr 21 SHT_STRTAB 0 0 108 31 0 0 1 0 ].

Definition obj_rodata : list Z :=
  enc_ehdr ET_REL 139 5 4 ++ text16 ++ rodata32 ++ data8 ++ shstrtab_rodata
  ++ flat_map enc_shdr rodata_sechdrs.

(** A heap in which another live block of 32 bytes lies at 4128, eight
    bytes after the end of a 24-byte block at 4096. *)
Definition neighbour_heap : mem := mem_block 4128 (repeat 170 32) no_mem.

(** An object with the sections (null), .text (16 bytes), .data (8
    bytes), .symtab (two entries) and .shstrtab.  Symbol 1 is a data
    object at offset 4 of .data (section 2).  [symtab_addr] is the value
    of [sh_addr] in the header of .symtab; as in every relocatable
    object, the other address fields are 0. *)
Definition shstrtab_sym : list Z :=
  [0; 46; 116; 101; 120; 116; 0;
   46; 100; 97; 116; 97; 0;
   46; 115; 121; 109; 116; 97; 98; 0;
   46; 115; 104; 115; 116; 114; 116; 97; 98; 0].

Definition symtab_data : list Z :=
  enc_sym 0 0 0 0 0 0 ++ enc_sym 0 4 4 1 0 2.

Definition sym_sechdrs (symtab_addr : Z) : list Elf32_Shdr :=
  [ null_shdr;
    mkShdr 1 SHT_PROGBITS 6 0 52 16 0 0 4 0;
    mkShdr 7 SHT_PROGBITS 3 0 68 8 0 0 4 0;
    mkShdr 13 SHT_SYMTAB 0 symtab_addr 76 32 0 2 4 16;
    mkShdr 21 SHT_STRTAB 0 0 108 31 0 0 1 0 ].

Definition obj_sym (symtab_addr : Z) : list Z :=
  enc_ehdr ET_REL 139 5 4 ++ text16 ++ data8 ++ symtab_data ++ shstrtab_sym
  ++ flat_map enc_shdr (sym_sechdrs symtab_addr).

(** The world in which the second loop starts for [obj_sym]: the file
    is open and the image of 56 zero bytes lies at 4096. *)
Definition sym_world (symtab_addr : Z) : world :=
  mkWorld 1 (upd 0 (mkSoinfo "x" None 0 4096 (-1) 0) (repeat zero_soinfo SO_MAX))
    None None (map_zeroed no_mem 4096 56) (Some (obj_sym symtab_addr, 139)) [].

(** An object with the sections (null), .symtab and .shstrtab whose
    symbol 1 is undefined.  The header of .symtab gives 4096 as its
    address. *)
Definition shstrtab_undef : list Z :=
  [0; 46; 115; 121; 109; 116; 97; 98; 0;
   46; 115; 104; 115; 116; 114; 116; 97; 98; 0].

Definition undef_sechdrs : list Elf32_Shdr :=
  [ null_shdr;
    mkShdr 1 SHT_SYMTAB 0 4096 52 32 0 1 4 16;
    mkShdr 9 SHT_STRTAB 0 0 84 19 0 0 1 0 ].

Definition obj_undef : list Z :=
  enc_ehdr ET_REL 103 3 2
  ++ (enc_sym 0 0 0 0 0 0 ++ enc_sym 1 0 0 16 0 SHN_UNDEF)
  ++ shstrtab_undef ++ flat_map enc_shdr undef_sechdrs.

(** An object with the sections (null), .text (8 bytes, address 4096),
    .symtab (address 4104), a relocation section for section 1 that is
    named ".data" (address 4136) and .shstrtab.  Its one relocation
    entry has kind 3 (R_386_GOT32). *)
Definition shstrtab_badrel : list Z :=
  [0; 46; 116; 101; 120; 116; 0;
   46; 115; 121; 109; 116; 97; 98; 0;
   46; 100; 97; 116; 97; 0;
   46; 115; 104; 115; 116; 114; 116; 97; 98; 0].

Definition badrel_sechdrs : list Elf32_Shdr :=
  [ null_shdr;
    mkShdr 1 SHT_PROGBITS 6 4096 52 8 0 0 4 0;
    mkShdr 7 SHT_SYMTAB 0 4104 60 32 0 1 4 16;
    mkShdr 15 SHT_REL 0 4136 92 8 2 1 4 8;
    mkShdr 21 SHT_STRTAB 0 0 100 31 0 0 1 0 ].

Definition obj_badrel : list Z :=
  enc_ehdr ET_REL 131 5 4
  ++ [1; 0; 0; 0; 2; 0; 0; 0]
  ++ (enc_sym 0 0 0 0 0 0 ++ enc_sym 0 8192 0 0 0 SHN_ABS)
  ++ (enc32 0 ++ enc32 259)
  ++ shstrtab_badrel ++ flat_map enc_shdr badrel_sechdrs.

(** An object with the sections (null), .text (two words, 16 and 32),
    .symtab, a relocation section for section 1 that is named ".data"
    and .shstrtab.  Symbol 1 is absolute with the value 8192; the
    relocation entries patch offset 0 of section 1 directly and offset
    4 PC-relatively, both with symbol 1.  The three arguments are the
    [sh_addr] fields of .text, .symtab and the relocation section; in
    the image at [base] these sections are copied to [base],
    [base + 8] and [base + 40]. *)
Definition reloc_file_sechdrs (text_addr symtab_addr rel_addr : Z)
    : list Elf32_Shdr :=
  [ null_shdr;
    mkShdr 1 SHT_PROGBITS 6 text_addr 52 8 0 0 4 0;
    mkShdr 7 SHT_SYMTAB 0 symtab_addr 60 32 0 1 4 16;
    mkShdr 15 SHT_REL 0 rel_addr 92 16 2 1 4 8;
    mkShdr 21 SHT_STRTAB 0 0 108 31 0 0 1 0 ].

Definition obj_reloc (text_addr symtab_addr rel_addr : Z) : list Z :=
  enc_ehdr ET_REL 139 5 4
  ++ (enc32 16 ++ enc32 32)
  ++ (enc_sym 0 0 0 0 0 0 ++ enc_sym 0 8192 0 0 0 SHN_ABS)
  ++ (enc32 0 ++ enc32 257 ++ enc32 4 ++ enc32 258)
  ++ shstrtab_badrel
  ++ flat_map enc_shdr (reloc_file_sechdrs text_addr symtab_addr rel_addr).

(** A heap in which another live block, the words 100 and 200, lies at
    5000. *)
Definition other_block : mem := mem_block 5000 (enc32 100 ++ enc32 200) no_mem.

(** An instance of the parameter [resolve_symbol] for the runs below: it
    returns NULL for every name.  Of the sample objects only
    [obj_undef] has an undefined symbol; [update_symbols] calls the
    lookup for no symbol of the others. *)
Definition no_symbols (sechdrs : list Elf32_Shdr) (name : list Z)
    : option dl_symbol := None.

(** [load_library "x"] and [find_library "x"] when the file ./x is
    [obj] and [calloc] returns [base] for the image. *)
Definition load (obj : list Z) (base : Z) : M (option nat) :=
  load_library SOINFO_NAME_LEN (one_file "x" obj) no_symbols
    (oracle_at base) "x".

Definition find (obj : list Z) (base : Z) : M (option nat) :=
  find_library SOINFO_NAME_LEN FLAG_LINKED FLAG_ERROR (one_file "x" obj)
    no_symbols (oracle_at base) "x".

(** Whether an event is an [open]. *)
Definition is_open (e : event) : bool :=
  match e with
  | EvOpen _ => true
  | _ => false
  end.

(** The worlds between the steps of [load_library "x"] for an object
    [obj] with the tables [sechdrs] and [shstrtbl], from the initial
    state, with the image at 4096. *)
Section Steps.

Variable obj : list Z.
Variable sechdrs : list Elf32_Shdr.
Variable shstrtbl : list Z.
Variable totalsize : Z.
Variable symindex : nat.

Definition step0 : world := initial_world no_mem.
Definition step_open : world :=
  world_of (open_library (one_file "x" obj) "x" step0) step0.
Definition step_header : world :=
  world_of (read_header (oracle_at 4096) "x" step_open) step0.
Definition step_alloc : world :=
  world_of (alloc_info SOINFO_NAME_LEN "x" step_header) step0.
Definition step_tables : world :=
  world_of (read_section_tables (oracle_at 4096) (firstn 52 obj) step_alloc)
           step0.
Definition step_calloc : world :=
  world_of (calloc_for_image (oracle_at 4096) 0 totalsize step_tables) step0.
Definition step_load : world :=
  world_of (load_sections shstrtbl sechdrs 4096 step_calloc) step0.
Definition step_symbols : world :=
  world_of (update_symbols no_symbols sechdrs symindex shstrtbl step_load)
           step0.

End Steps.


(** A table and a heap for [do_relocate]: section 1 lies at 4096,
    the symbol table at 4200, and the relocation section 3 at 4300
    patches section 1 with a direct and a PC-relative entry that both
    name symbol 1, whose value is 8192. *)
Definition reloc_sechdrs : list Elf32_Shdr :=
  [ null_shdr;
    mkShdr 1 SHT_PROGBITS 6 4096 52 8 0 0 4 0;
    mkShdr 0 SHT_SYMTAB 0 4200 0 32 0 0 4 16;
    mkShdr 0 SHT_REL 0 4300 0 16 2 1 4 8 ].

Definition reloc_heap : mem :=
  mem_block 4096 (enc32 16 ++ enc32 32)
    (mem_block 4200 (enc_sym 0 0 0 0 0 0 ++ enc_sym 1 8192 0 0 0 1)
       (mem_block 4300 (enc32 0 ++ enc32 257 ++ enc32 4 ++ enc32 258)
          no_mem)).

Definition reloc_world : world := initial_world reloc_heap.

(** The same after entry 0, which has added 8192 to the word at 4096. *)
Definition reloc_world1 : world :=
  world_of (do_relocate_from 1 0 reloc_sechdrs 2 3 reloc_world) reloc_world.

(** A pool with the active list 1 -> 0 and slot 2 allocated but in
    neither list. *)
Definition listed_world : world :=
  mkWorld 3
    (upd 0 (mkSoinfo "libdl" None 1 0 (-1) 0)
       (upd 1 (mkSoinfo "a" (Some 0%nat) 1 0 (-1) 0)
          (upd 2 (mkSoinfo "b" None 0 0 (-1) 0) (repeat zero_soinfo SO_MAX))))
    None (Some 1%nat) no_mem None [].

End Sample.

(** * Properties *)

(** ** Words and memory *)

Lemma bytes_of_word v :
  0 <= v < 2 ^ 32 ->
  byte_of v 0 + 256 * byte_of v 1 + 65536 * byte_of v 2 + 16777216 * byte_of v 3 = v.
Proof.
  intros Hv. unfold byte_of.
  change (256 ^ 0) with 1. change (256 ^ 1) with 256.
  change (256 ^ 2) with 65536. change (256 ^ 3) with 16777216.
  change (2 ^ 32) with 4294967296 in Hv.
  rewrite Z.div_1_r.
  assert (E2 : v / 65536 = v / 256 / 256) by (rewrite Z.div_div by lia; reflexivity).
  assert (E3 : v / 16777216 = v / 256 / 256 / 256)
    by (rewrite !Z.div_div by lia; reflexivity).
  rewrite E2, E3.
  pose proof (Z.div_mod v 256 ltac:(lia)).
  pose proof (Z.div_mod (v / 256) 256 ltac:(lia)).
  pose proof (Z.div_mod (v / 256 / 256) 256 ltac:(lia)).
  assert (v / 256 / 256 / 256 < 256).
  { rewrite <- E3. apply Z.div_lt_upper_bound; lia. }
  assert (0 <= v / 256 / 256 / 256).
  { rewrite <- E3. apply Z.div_pos; lia. }
  rewrite (Z.mod_small (v / 256 / 256 / 256) 256) by lia.
  lia.
Qed.

Lemma store8_same m a v : store8 m a v a = Some v.
Proof. unfold store8. now rewrite Z.eqb_refl. Qed.

Lemma store8_other m a v x : x <> a -> store8 m a v x = m x.
Proof. unfold store8. intros H. destruct (Z.eqb_spec x a); congruence. Qed.

Lemma load32_mapped m a v :
  load32 m a = Some v ->
  mapped m a = true /\ mapped m (a + 1) = true /\
  mapped m (a + 2) = true /\ mapped m (a + 3) = true.
Proof.
  unfold load32, mapped.
  destruct (m a), (m (a + 1)), (m (a + 2)), (m (a + 3)); intros; try discriminate; auto.
Qed.

Lemma store32_load32 m a v m' :
  store32 m a v = Some m' -> 0 <= v < 2 ^ 32 -> load32 m' a = Some v.
Proof.
  unfold store32. destruct (andb _ _); [|discriminate]. intros [= <-] Hv.
  unfold load32.
  rewrite (store8_other _ (a + 3)), (store8_other _ (a + 2)), (store8_other _ (a + 1)), store8_same by lia.
  rewrite (store8_other _ (a + 3)), (store8_other _ (a + 2)), store8_same by lia.
  rewrite (store8_other _ (a + 3)), store8_same by lia.
  rewrite store8_same.
  f_equal. now apply bytes_of_word.
Qed.

Lemma store32_outside m a v m' x :
  store32 m a v = Some m' -> x < a \/ a + 4 <= x -> m' x = m x.
Proof.
  unfold store32. destruct (andb _ _); [|discriminate]. intros [= <-] Hx.
  rewrite !store8_other by lia. reflexivity.
Qed.

Lemma store32_defined m a v old :
  load32 m a = Some old -> exists m', store32 m a v = Some m'.
Proof.
  intros H. apply load32_mapped in H as (H0 & H1 & H2 & H3).
  unfold store32. rewrite H0, H1, H2, H3. simpl. eauto.
Qed.

(** ** Relocation arithmetic *)

Lemma bind_Done {A B} (c : M A) (k : A -> M B) w a w' :
  c w = Done a w' -> bind c k w = k a w'.
Proof. unfold bind. now intros ->. Qed.

Lemma rd32_Done w a v : load32 (heap w) a = Some v -> rd32 a w = Done v w.
Proof. unfold rd32. now intros ->. Qed.

Lemma rd16_Done w a v : load16 (heap w) a = Some v -> rd16 a w = Done v w.
Proof. unfold rd16. now intros ->. Qed.

Lemma wr32_Done w a v m' :
  store32 (heap w) a v = Some m' -> wr32 a v w = Done tt (set_heap m' w).
Proof. unfold wr32. now intros ->. Qed.

Lemma wrap32_range x : 0 <= wrap32 x < 2 ^ 32.
Proof. unfold wrap32. apply Z.mod_pos_bound. reflexivity. Qed.

(** The loop body on an entry of a supported kind. *)
Lemma relocate_entry_supported
    (sechdrs : list Elf32_Shdr) (symindex relsec : nat) (i : Z) (w : world)
    (rs ts ss : Elf32_Shdr) (r_offset r_info old V : Z) :
  nth_error sechdrs relsec = Some rs ->
  nth_error sechdrs (Z.to_nat (sh_info rs)) = Some ts ->
  nth_error sechdrs symindex = Some ss ->
  load32 (heap w) (ptr_add (sh_addr rs) (sizeof_Rel * i + r_offset_off))
    = Some r_offset ->
  load32 (heap w) (ptr_add (sh_addr rs) (sizeof_Rel * i + r_info_off))
    = Some r_info ->
  load32 (heap w) (ptr_add (sh_addr ts) r_offset) = Some old ->
  load32 (heap w)
         (ptr_add (ptr_add (sh_addr ss) (sizeof_Sym * ELF32_R_SYM r_info))
                  st_value_off) = Some V ->
  ELF32_R_TYPE r_info = R_386_32 \/ ELF32_R_TYPE r_info = R_386_PC32 ->
  let T := ptr_add (sh_addr ts) r_offset in
  exists m',
    relocate_entry sechdrs symindex relsec i w = Done 0 (set_heap m' w) /\
    load32 m' T
      = Some (if ELF32_R_TYPE r_info =? R_386_32
              then (old + V) mod 2 ^ 32
              else (old + V - T) mod 2 ^ 32) /\
    forall x, x < T \/ T + 4 <= x -> m' x = heap w x.
Proof.
  intros Hrs Hts Hss Hoff Hinfo Hold HV Hkind T.
  unfold relocate_entry. rewrite Hrs, Hts, Hss.
  rewrite (bind_Done _ _ _ _ _ (rd32_Done _ _ _ Hoff)).
  rewrite (bind_Done _ _ _ _ _ (rd32_Done _ _ _ Hinfo)).
  fold T in Hold |- *.
  destruct Hkind as [Hk | Hk]; rewrite Hk.
  - rewrite Z.eqb_refl.
    rewrite (bind_Done _ _ _ _ _ (rd32_Done _ _ _ Hold)).
    rewrite (bind_Done _ _ _ _ _ (rd32_Done _ _ _ HV)).
    destruct (store32_defined (heap w) T (wrap32 (old + V)) old Hold) as [m' Hm'].
    exists m'. rewrite (bind_Done _ _ _ _ _ (wr32_Done _ _ _ _ Hm')).
    split; [reflexivity|]. split.
    + apply (store32_load32 _ _ _ _ Hm'), wrap32_range.
    + intros x Hx. apply (store32_outside _ _ _ _ _ Hm' Hx).
  - change (R_386_PC32 =? R_386_32) with false. cbv iota.
    rewrite Z.eqb_refl.
    rewrite (bind_Done _ _ _ _ _ (rd32_Done _ _ _ Hold)).
    rewrite (bind_Done _ _ _ _ _ (rd32_Done _ _ _ HV)).
    destruct (store32_defined (heap w) T (wrap32 (old + wrap32 (V - T))) old Hold)
      as [m' Hm'].
    exists m'. rewrite (bind_Done _ _ _ _ _ (wr32_Done _ _ _ _ Hm')).
    split; [reflexivity|]. split.
    + replace ((old + V - T) mod 2 ^ 32) with (wrap32 (old + wrap32 (V - T))).
      * apply (store32_load32 _ _ _ _ Hm'), wrap32_range.
      * unfold wrap32. rewrite Z.add_mod_idemp_r by (now compute).
        f_equal. lia.
    + intros x Hx. apply (store32_outside _ _ _ _ _ Hm' Hx).
Qed.

Lemma do_relocate_from_app j :
  forall n i sechdrs symindex relsec w w',
    do_relocate_from j i sechdrs symindex relsec w = Done 0 w' ->
    do_relocate_from (j + n) i sechdrs symindex relsec w
    = do_relocate_from n (i + Z.of_nat j) sechdrs symindex relsec w'.
Proof.
  induction j as [|j IH]; intros n i sechdrs symindex relsec w w' H.
  - cbn [do_relocate_from] in H. injection H as <-.
    cbn [Nat.add]. now rewrite Z.add_0_r.
  - cbn [do_relocate_from Nat.add] in H |- *. unfold bind in H |- *.
    destruct (relocate_entry sechdrs symindex relsec i w) as [r w1| | |];
      try discriminate.
    destruct (Z.eqb_spec r 0).
    + rewrite (IH n _ _ _ _ _ _ H).
      replace (i + 1 + Z.of_nat j) with (i + Z.of_nat (S j)) by lia.
      reflexivity.
    + injection H as -> _. contradiction.
Qed.

(** Relative to the [sh_addr] fields of the table it is given,
    [do_relocate] takes the entries of the relocation section [relsec]
    in order.  When it has applied the first [j] entries and entry [j]
    is of a supported kind, let [T] be the [sh_addr] field of the
    section being relocated plus the entry's offset, [old] the 32-bit
    word at [T] and [V] the value of the symbol the entry names: the
    entry stores [old + V] at [T] if it is direct (R_386_32) and
    [old + V - T] if it is PC-relative (R_386_PC32), both modulo 2^32,
    changes no other byte, and [do_relocate] goes on with entry
    [j + 1]. *)
Lemma do_relocate_applies_entry
    (sechdrs : list Elf32_Shdr) (symindex relsec j : nat) (w wj : world)
    (rs ts ss : Elf32_Shdr) (r_offset r_info old V : Z) :
  nth_error sechdrs relsec = Some rs ->
  nth_error sechdrs (Z.to_nat (sh_info rs)) = Some ts ->
  nth_error sechdrs symindex = Some ss ->
  (j < Z.to_nat (sh_size rs / sizeof_Rel))%nat ->
  do_relocate_from j 0 sechdrs symindex relsec w = Done 0 wj ->
  load32 (heap wj)
         (ptr_add (sh_addr rs) (sizeof_Rel * Z.of_nat j + r_offset_off))
    = Some r_offset ->
  load32 (heap wj)
         (ptr_add (sh_addr rs) (sizeof_Rel * Z.of_nat j + r_info_off))
    = Some r_info ->
  load32 (heap wj) (ptr_add (sh_addr ts) r_offset) = Some old ->
  load32 (heap wj)
         (ptr_add (ptr_add (sh_addr ss) (sizeof_Sym * ELF32_R_SYM r_info))
                  st_value_off) = Some V ->
  ELF32_R_TYPE r_info = R_386_32 \/ ELF32_R_TYPE r_info = R_386_PC32 ->
  let T := ptr_add (sh_addr ts) r_offset in
  exists m',
    do_relocate sechdrs symindex relsec w
      = do_relocate_from (Z.to_nat (sh_size rs / sizeof_Rel) - S j)
          (Z.of_nat (S j)) sechdrs symindex relsec (set_heap m' wj) /\
    load32 m' T
      = Some (if ELF32_R_TYPE r_info =? R_386_32
              then (old + V) mod 2 ^ 32
              else (old + V - T) mod 2 ^ 32) /\
    forall x, x < T \/ T + 4 <= x -> m' x = heap wj x.
Proof.
  intros Hrs Hts Hss Hj Hpre Hoff Hinfo Hold HV Hkind T.
  destruct (relocate_entry_supported sechdrs symindex relsec (Z.of_nat j) wj
              rs ts ss r_offset r_info old V Hrs Hts Hss Hoff Hinfo Hold HV
              Hkind) as (m' & Hrun & Hword & Hrest).
  exists m'. split; [|split; assumption].
  unfold do_relocate. rewrite Hrs.
  set (num := Z.to_nat (sh_size rs / sizeof_Rel)) in *.
  replace num with (j + S (num - S j))%nat at 1 by lia.
  rewrite (do_relocate_from_app j (S (num - S j)) 0 _ _ _ _ _ Hpre).
  cbn [do_relocate_from]. unfold bind. rewrite Z.add_0_l, Hrun.
  change (0 =? 0) with true. cbv iota.
  replace (Z.of_nat j + 1) with (Z.of_nat (S j)) by lia.
  reflexivity.
Qed.

(** ** The descriptor pool *)

Lemma is_list_det pool h l1 :
  is_list pool h l1 -> forall l2, is_list pool h l2 -> l1 = l2.
Proof.
  induction 1 as [|i d l Hd Hl IH]; intros l2 H2; inversion H2; subst.
  - reflexivity.
  - f_equal. apply IH. congruence.
Qed.

Lemma is_list_suffix pool h l :
  is_list pool h l ->
  forall i, In i l ->
  exists l1 l2, l = l1 ++ i :: l2 /\ is_list pool (Some i) (i :: l2).
Proof.
  induction 1 as [|j d l Hd Hl IH]; intros i Hi.
  - destruct Hi.
  - destruct Hi as [-> | Hi].
    + exists [], l. split; [reflexivity|]. econstructor; eassumption.
    + destruct (IH i Hi) as (l1 & l2 & -> & H2).
      exists (j :: l1), l2. split; [reflexivity | assumption].
Qed.

(** A list that reaches NULL visits no slot twice. *)
Lemma is_list_NoDup pool h l : is_list pool h l -> NoDup l.
Proof.
  induction 1 as [|i d l Hd Hl IH]; constructor; [|assumption].
  intros Hi.
  destruct (is_list_suffix _ _ _ Hl i Hi) as (l1 & l2 & E & H2).
  assert (H1 : is_list pool (Some i) (i :: l)) by (econstructor; eassumption).
  pose proof (is_list_det _ _ _ H1 _ H2) as E2.
  injection E2 as E2. subst l2.
  apply (f_equal (@List.length nat)) in E.
  rewrite length_app in E. simpl in E. lia.
Qed.

Lemma is_list_bound pool h l :
  is_list pool h l -> forall i, In i l -> (i < List.length pool)%nat.
Proof.
  induction 1 as [|j d l Hd Hl IH]; intros i Hi.
  - destruct Hi.
  - destruct Hi as [<- | Hi]; [|auto].
    apply nth_error_Some. congruence.
Qed.

Lemma is_list_length pool h l :
  is_list pool h l -> (List.length l <= List.length pool)%nat.
Proof.
  intros H.
  rewrite <- (length_seq (List.length pool) 0).
  apply NoDup_incl_length.
  - eapply is_list_NoDup; eassumption.
  - intros i Hi. apply in_seq. pose proof (is_list_bound _ _ _ H i Hi). lia.
Qed.

Lemma walk_is_list fuel pool h l :
  walk fuel pool h = Some l -> is_list pool h l.
Proof.
  revert h l. induction fuel as [|k IH]; intros h l; simpl; [discriminate|].
  destruct h as [i|]; [|intros [= <-]; constructor].
  destruct (nth_error pool i) as [d|] eqn:Hd; [|discriminate].
  destruct (walk k pool (so_next d)) as [l'|] eqn:Hw; [|discriminate].
  intros [= <-]. econstructor; eauto.
Qed.

(** The loop of [free_info] on a list that does not hold [si]. *)
Lemma scan_solist_absent pool si trav l :
  is_list pool trav l -> ~ In si l ->
  forall fuel prev w, (List.length l < fuel)%nat ->
  exists prev', scan_solist fuel pool si trav prev w = Done (None, prev') w.
Proof.
  induction 1 as [|i d l Hd Hl IH]; intros Hsi fuel prev w Hfuel;
    (destruct fuel as [|k]; [simpl in Hfuel; lia|]); simpl.
  - eexists. reflexivity.
  - destruct (Nat.eqb_spec i si) as [->|Hne].
    + exfalso. apply Hsi. now left.
    + rewrite Hd. apply IH.
      * intros Hin. apply Hsi. now right.
      * simpl in Hfuel. lia.
Qed.

(** C10: when [free_info] is called on a descriptor that is not in the
    active list, it reports "not in solist" and returns; the pool, both
    list heads, the descriptor and the heap are as before (only the
    diagnostic is added to the trace). *)
Theorem free_info_not_in_solist (w : world) (si : nat) (d : soinfo)
    (l : list nat) :
  List.length (sopool w) = SO_MAX ->
  is_list (sopool w) (solist w) l ->
  ~ In si l ->
  nth_error (sopool w) si = Some d ->
  exists w',
    free_info si w = Done tt w' /\
    w' = log (EvError (NotInSolist (so_name d))) w /\
    solist w' = solist w /\ freelist w' = freelist w /\
    sopool w' = sopool w /\ socount w' = socount w /\
    nth_error (sopool w') si = Some d /\ heap w' = heap w.
Proof.
  intros Hlen Hl Hsi Hd.
  pose proof (is_list_length _ _ _ Hl) as Hll. rewrite Hlen in Hll.
  destruct (scan_solist_absent _ si _ _ Hl Hsi (S SO_MAX) None w
              ltac:(lia)) as [prev' Hscan].
  eexists. split; [|repeat split; try reflexivity; assumption].
  unfold free_info. rewrite (bind_Done _ _ _ _ _ Hscan).
  rewrite Hd. reflexivity.
Qed.

(** At slot 2 of [Sample.listed_world], whose active list is 1, 0. *)
Lemma free_info_not_in_solist_witness :
  exists w',
    free_info 2 Sample.listed_world = Done tt w' /\
    w' = log (EvError (NotInSolist "b")) Sample.listed_world /\
    solist w' = Some 1%nat /\ freelist w' = None /\
    sopool w' = sopool Sample.listed_world /\ socount w' = 3%nat /\
    nth_error (sopool w') 2 = Some (mkSoinfo "b" None 0 0 (-1) 0) /\
    heap w' = Sample.no_mem.
Proof.
  refine (free_info_not_in_solist Sample.listed_world 2
            (mkSoinfo "b" None 0 0 (-1) 0) [1; 0]%nat eq_refl _ _ eq_refl).
  - apply (walk_is_list 3). reflexivity.
  - intros [H | [H | []]]; discriminate H.
Defined.

(** ** The name bound *)



Lemma same_loader_trans w1 w2 w3 :
  same_loader w1 w2 -> same_loader w2 w3 -> same_loader w1 w3.
Proof.
  unfold same_loader. intros (?&?&?&?&?) (?&?&?&?&?). repeat split; congruence.
Qed.

Section NameBound.

Variable SOINFO_NAME_LEN : nat.
Variable fs : string -> option (list Z).
Variable resolve_symbol : list Elf32_Shdr -> list Z -> option dl_symbol.










End NameBound.



(** ** Copying sections into the image *)

Ltac zbool :=
  repeat match goal with
         | |- context [?a <=? ?b] => destruct (Z.leb_spec a b); try lia
         | |- context [?a <? ?b] => destruct (Z.ltb_spec a b); try lia
         end;
  cbn [andb].

Lemma copy_to_user_spec bs :
  forall m a,
    (forall k, 0 <= k < Z.of_nat (List.length bs) -> mapped m (a + k) = true) ->
    forall x,
      copy_to_user m a bs x
      = if (a <=? x) && (x <? a + Z.of_nat (List.length bs))
        then nth_error bs (Z.to_nat (x - a))
        else m x.
Proof.
  induction bs as [|b r IH]; intros m a Hmap x.
  - simpl. replace (a + 0) with a by lia.
    destruct ((a <=? x) && (x <? a)) eqn:E; [|reflexivity].
    apply andb_prop in E as [E1 E2]. lia.
  - cbn [copy_to_user].
    pose proof (Hmap 0 ltac:(cbn [List.length]; lia)) as H0.
    replace (a + 0) with a in H0 by lia. unfold mapped in H0.
    destruct (m a) eqn:Ea; [|discriminate].
    rewrite IH.
    + cbn [List.length]. rewrite Nat2Z.inj_succ.
      destruct (Z.lt_trichotomy x a) as [Hlt | [Heq | Hgt]].
      * zbool. apply store8_other. lia.
      * subst x. zbool. rewrite Z.sub_diag. cbn [Z.to_nat nth_error].
        apply store8_same.
      * zbool.
        -- replace (Z.to_nat (x - a)) with (S (Z.to_nat (x - (a + 1)))) by lia.
           reflexivity.
        -- apply store8_other. lia.
    + intros k Hk. unfold mapped, store8.
      destruct (Z.eqb_spec (a + 1 + k) a); [reflexivity|].
      specialize (Hmap (k + 1) ltac:(cbn [List.length]; lia)).
      unfold mapped in Hmap. now replace (a + 1 + k) with (a + (k + 1)) by lia.
Qed.

(** The bytes [read] gets for [n] bytes at offset [off] of a file. *)
Lemma file_bytes data (n off : nat) :
  let bs := firstn n (skipn off data) in
  (List.length bs <= n)%nat /\
  (forall k, (k < List.length bs)%nat ->
             nth_error bs k = Some (nth (off + k) data 0)) /\
  (forall k, (List.length bs <= k)%nat -> (k < n)%nat ->
             nth (off + k) data 0 = 0).
Proof.
  intros bs. subst bs. rewrite length_firstn, length_skipn.
  split; [lia|]. split.
  - intros k Hk. rewrite nth_error_firstn.
    destruct (Nat.ltb_spec k n); [|lia].
    rewrite nth_error_skipn. apply nth_error_nth'. lia.
  - intros k Hk Hn. apply nth_overflow. lia.
Qed.

Lemma elf_loadsection_zeroed s q w data pos :
  openfile w = Some (data, pos) ->
  0 <= sh_offset s < 2 ^ 31 ->
  (forall k, 0 <= k < sh_size s -> heap w (q + k) = Some 0) ->
  exists w',
    elf_loadsection s q w = Done tt w' /\
    (exists pos', openfile w' = Some (data, pos')) /\
    (forall k, 0 <= k < sh_size s ->
       heap w' (q + k) = Some (nth (Z.to_nat (sh_offset s + k)) data 0)) /\
    (forall x, x < q \/ q + sh_size s <= x -> heap w' x = heap w x).
Proof.
  intros Hopen Hoff Hzero.
  unfold elf_loadsection, bind, lseek. rewrite Hopen.
  destruct (Z.ltb_spec (sh_offset s) (2 ^ 31)); [|lia].
  unfold read. cbn [openfile log set_openfile heap set_heap].
  eexists. split; [reflexivity|].
  cbn [openfile log set_openfile heap set_heap].
  split; [eauto|].
  destruct (file_bytes data (Z.to_nat (sh_size s)) (Z.to_nat (sh_offset s)))
    as (Hlen & Hnth & Hover).
  set (bs := firstn (Z.to_nat (sh_size s)) (skipn (Z.to_nat (sh_offset s)) data)) in *.
  assert (Hmap : forall k, 0 <= k < Z.of_nat (List.length bs) ->
                           mapped (heap w) (q + k) = true).
  { intros k Hk. unfold mapped. rewrite Hzero by lia. reflexivity. }
  split.
  - intros k Hk. rewrite (copy_to_user_spec bs _ _ Hmap).
    destruct (Z.ltb_spec (q + k) (q + Z.of_nat (List.length bs))).
    + destruct (Z.leb_spec q (q + k)); [|lia]. cbn [andb].
      replace (q + k - q) with k by lia.
      rewrite Hnth by lia. f_equal. f_equal. lia.
    + rewrite andb_false_r. rewrite Hzero by lia. f_equal.
      symmetry.
      replace (Z.to_nat (sh_offset s + k))
        with (Z.to_nat (sh_offset s) + Z.to_nat k)%nat by lia.
      apply Hover; lia.
  - intros x Hx. rewrite (copy_to_user_spec bs _ _ Hmap).
    destruct (Z.leb_spec q x); [|reflexivity].
    destruct (Z.ltb_spec x (q + Z.of_nat (List.length bs))); [lia | reflexivity].
Qed.

Lemma wrap32_small x : 0 <= x < 2 ^ 32 -> wrap32 x = x.
Proof. intros H. unfold wrap32. now apply Z.mod_small. Qed.

(** The two loops in terms of [included]. *)
Lemma collect_section_included shstrtbl i p acc :
  collect_section shstrtbl i p acc
  = match included shstrtbl p with
    | None => None
    | Some false => Some acc
    | Some true =>
        Some (wrap32 (fst acc + sh_size p),
              if sh_type p =? SHT_SYMTAB then i else snd acc)
    end.
Proof.
  unfold collect_section, included.
  destruct (Z.eqb_spec (sh_type p) SHT_PROGBITS) as [E|_].
  { rewrite E. destruct (is_data_or_text shstrtbl p) as [[|]|]; reflexivity. }
  destruct (Z.eqb_spec (sh_type p) SHT_NOBITS) as [E|_].
  { rewrite E. reflexivity. }
  destruct (Z.eqb_spec (sh_type p) SHT_SYMTAB) as [E|_]; [reflexivity|].
  cbn [orb].
  destruct ((sh_type p =? SHT_RELA) || (sh_type p =? SHT_REL)); [|reflexivity].
  destruct (is_data_or_text shstrtbl p) as [[|]|]; reflexivity.
Qed.

Lemma load_section_included shstrtbl p q :
  load_section shstrtbl p q
  = match included shstrtbl p with
    | None => fault
    | Some false => ret tt
    | Some true =>
        if (sh_type p =? SHT_RELA) || (sh_type p =? SHT_REL)
        then elf_loadsection p q ;;; elf_loadsection p q
        else elf_loadsection p q
    end.
Proof.
  unfold load_section, included.
  destruct (Z.eqb_spec (sh_type p) SHT_PROGBITS) as [E|_].
  { rewrite E. destruct (is_data_or_text shstrtbl p) as [[|]|]; reflexivity. }
  destruct (Z.eqb_spec (sh_type p) SHT_NOBITS) as [E|_].
  { rewrite E. reflexivity. }
  destruct (Z.eqb_spec (sh_type p) SHT_SYMTAB) as [E|_].
  { rewrite E. reflexivity. }
  cbn [orb].
  destruct ((sh_type p =? SHT_RELA) || (sh_type p =? SHT_REL)); [|reflexivity].
  destruct (is_data_or_text shstrtbl p) as [[|]|]; reflexivity.
Qed.

(** Sections that are not included leave the world alone. *)
Lemma load_sections_skipped shstrtbl ss :
  Forall (fun p => included shstrtbl p = Some false) ss ->
  forall q w, exists q', load_sections shstrtbl ss q w = Done q' w.
Proof.
  induction 1 as [|p r Hp Hr IH]; intros q w; cbn [load_sections].
  - eexists. reflexivity.
  - unfold bind. rewrite load_section_included, Hp. unfold ret. apply IH.
Qed.

Lemma load_sections_empty_skipped shstrtbl ss :
  Forall (fun p => included shstrtbl p = Some false /\ sh_size p = 0) ss ->
  forall rest q w, 0 <= q < 2 ^ 32 ->
    load_sections shstrtbl (ss ++ rest) q w = load_sections shstrtbl rest q w.
Proof.
  induction 1 as [|p r [Hp Hz] Hr IH]; intros rest q w Hq; cbn [load_sections app].
  - reflexivity.
  - unfold bind at 1. rewrite load_section_included, Hp. unfold ret.
    rewrite Hz. unfold ptr_add. rewrite Z.add_0_r, wrap32_small by assumption.
    now apply IH.
Qed.

Lemma collect_sections_skipped shstrtbl ss :
  Forall (fun p => included shstrtbl p = Some false) ss ->
  forall i acc, collect_sections shstrtbl ss i acc = Some acc.
Proof.
  induction 1 as [|p r Hp Hr IH]; intros i acc; cbn [collect_sections].
  - reflexivity.
  - rewrite collect_section_included, Hp. apply IH.
Qed.

Lemma collect_sections_app shstrtbl ss1 :
  forall ss2 i acc,
    collect_sections shstrtbl (ss1 ++ ss2) i acc
    = match collect_sections shstrtbl ss1 i acc with
      | Some acc' => collect_sections shstrtbl ss2 (List.length ss1 + i) acc'
      | None => None
      end.
Proof.
  induction ss1 as [|p r IH]; intros ss2 i acc; cbn [collect_sections app].
  - reflexivity.
  - destruct (collect_section shstrtbl i p acc) as [acc'|]; [|reflexivity].
    rewrite IH. cbn [List.length].
    replace (List.length r + S i)%nat with (S (List.length r) + i)%nat by lia.
    reflexivity.
Qed.

(** C4 (amended): an uninitialised (NOBITS) section reserves its size in
    the image and is also filled by [elf_loadsection], like the symbol
    table, with the bytes the file has at the header's [sh_offset].
    Let the included sections of an object be a 16-byte code section
    followed by an 8-byte NOBITS section (the sections before them empty
    and not included, those after them not included), let the
    [sh_offset] of both be below 2^31, so that [lseek] succeeds, let the
    file be open and the image be a block of zero bytes at [q] that
    ends within the address space ([q + 24 <= 2^32]).  Then the image
    has 24 bytes, offsets 0..16 hold the file's bytes at the code
    section's offset, and offsets 16..24 hold the file's bytes at the
    NOBITS section's offset (zero where the file has no byte at that
    offset). *)
Theorem nobits_section_is_read_from_file
    (shstrtbl : list Z) (pre post : list Elf32_Shdr) (text bss : Elf32_Shdr)
    (q : Z) (w : world) (data : list Z) (pos : Z) :
  Forall (fun p => included shstrtbl p = Some false /\ sh_size p = 0) pre ->
  Forall (fun p => included shstrtbl p = Some false) post ->
  sh_type text = SHT_PROGBITS ->
  is_data_or_text shstrtbl text = Some true ->
  sh_size text = 16 ->
  sh_type bss = SHT_NOBITS ->
  sh_size bss = 8 ->
  0 <= sh_offset text < 2 ^ 31 ->
  0 <= sh_offset bss < 2 ^ 31 ->
  openfile w = Some (data, pos) ->
  0 <= q -> q + 24 <= 2 ^ 32 ->
  (forall x, q <= x < q + 24 -> heap w x = Some 0) ->
  collect_sections shstrtbl (pre ++ text :: bss :: post) 0 (0, 0%nat)
    = Some (24, 0%nat) /\
  exists q' w',
    load_sections shstrtbl (pre ++ text :: bss :: post) q w = Done q' w' /\
    (forall k, 0 <= k < 16 ->
       heap w' (q + k) = Some (nth (Z.to_nat (sh_offset text + k)) data 0)) /\
    (forall k, 0 <= k < 8 ->
       heap w' (q + 16 + k)
       = Some (nth (Z.to_nat (sh_offset bss + k)) data 0)).
Proof.
  intros Hpre Hpost Htt Htn Hts Hbt Hbs Hto Hbo Hopen Hq0 Hq1 Hzero.
  assert (Hit : included shstrtbl text = Some true).
  { unfold included. rewrite Htt. exact Htn. }
  assert (Hib : included shstrtbl bss = Some true).
  { unfold included. rewrite Hbt. reflexivity. }
  assert (Hpre' : Forall (fun p => included shstrtbl p = Some false) pre).
  { eapply Forall_impl; [|exact Hpre]. intros p [H _]. exact H. }
  split.
  - rewrite collect_sections_app, (collect_sections_skipped _ _ Hpre').
    cbn [collect_sections]. rewrite !collect_section_included.
    rewrite Hit. cbv iota. rewrite !collect_section_included.
    rewrite Hib, Htt, Hbt, Hts, Hbs. cbn [fst snd].
    apply collect_sections_skipped. exact Hpost.
  - rewrite (load_sections_empty_skipped _ _ Hpre) by lia.
    cbn [load_sections]. unfold bind at 1. rewrite load_section_included.
    rewrite Hit, Htt. change ((SHT_PROGBITS =? SHT_RELA) || (SHT_PROGBITS =? SHT_REL))
      with false. cbv iota.
    destruct (elf_loadsection_zeroed text q w data pos Hopen Hto)
      as (w1 & -> & [pos1 Hopen1] & Hin1 & Hout1).
    { intros k Hk. apply Hzero. lia. }
    rewrite Hts in *. unfold ptr_add. rewrite wrap32_small by lia.
    unfold bind at 1. rewrite load_section_included.
    rewrite Hib, Hbt. change ((SHT_NOBITS =? SHT_RELA) || (SHT_NOBITS =? SHT_REL))
      with false. cbv iota.
    destruct (elf_loadsection_zeroed bss (q + 16) w1 data pos1 Hopen1 Hbo)
      as (w2 & -> & [pos2 Hopen2] & Hin2 & Hout2).
    { intros k Hk. rewrite Hout1 by lia. apply Hzero. lia. }
    rewrite Hbs in *.
    destruct (load_sections_skipped _ _ Hpost (wrap32 (q + 16 + 8)) w2)
      as [q' ->].
    exists q', w2. split; [reflexivity|]. split.
    + intros k Hk. rewrite Hout2 by lia. now apply Hin1.
    + intros k Hk. now apply Hin2.
Qed.

(** At [Sample.obj_bss], in the world in which the second loop
    starts. *)
Lemma nobits_section_is_read_from_file_witness :
  collect_sections Sample.shstrtab_bss
    ([Sample.null_shdr] ++ Sample.text_shdr :: Sample.bss_shdr
       :: [Sample.shstrtab_bss_shdr]) 0 (0, 0%nat)
    = Some (24, 0%nat) /\
  exists q' w',
    load_sections Sample.shstrtab_bss
      ([Sample.null_shdr] ++ Sample.text_shdr :: Sample.bss_shdr
         :: [Sample.shstrtab_bss_shdr]) 4096 Sample.bss_world
      = Done q' w' /\
    (forall k, 0 <= k < 16 ->
       heap w' (4096 + k)
       = Some (nth (Z.to_nat (sh_offset Sample.text_shdr + k))
                   Sample.obj_bss 0)) /\
    (forall k, 0 <= k < 8 ->
       heap w' (4096 + 16 + k)
       = Some (nth (Z.to_nat (sh_offset Sample.bss_shdr + k))
                   Sample.obj_bss 0)).
Proof.
  apply (nobits_section_is_read_from_file Sample.shstrtab_bss
           [Sample.null_shdr] [Sample.shstrtab_bss_shdr]
           Sample.text_shdr Sample.bss_shdr 4096 Sample.bss_world
           Sample.obj_bss 90).
  - repeat constructor.
  - repeat constructor.
  - reflexivity.
  - reflexivity.
  - reflexivity.
  - reflexivity.
  - reflexivity.
  - split; [discriminate | reflexivity].
  - split; [discriminate | reflexivity].
  - reflexivity.
  - discriminate.
  - discriminate.
  - intros x Hx. cbn [heap Sample.bss_world]. unfold map_zeroed.
    destruct (Z.leb_spec 4096 x); [|lia].
    destruct (Z.ltb_spec x (4096 + 24)); [reflexivity | lia].
Defined.

(** C4, as stated, fails: in the image of [Sample.obj_bss] the region of
    the uninitialised section is not zero; offset 17 holds the byte that
    the file has at offset 69, the '.' of a section name. *)
Lemma nobits_counterexample :
  exists si w',
    Sample.load Sample.obj_bss 4096 (initial_world Sample.no_mem)
      = Done (Some si) w' /\
    option_map so_image (nth_error (sopool w') si) = Some 4096 /\
    heap w' (4096 + 17) = Some 46 /\
    heap w' (4096 + 24) = None.
Proof.
  do 2 eexists. split; [vm_compute; reflexivity|].
  vm_compute. repeat split.
Qed.

(** ** The size of the image and the cursor *)

(** [totalsize] is the sum, modulo 2^32, of the sizes of the included
    sections. *)
Lemma collect_sections_total shstrtbl ss :
  forall i acc acc',
    collect_sections shstrtbl ss i acc = Some acc' ->
    wrap32 (fst acc')
    = wrap32 (fst acc
              + fold_right Z.add 0 (map (included_size shstrtbl) ss)).
Proof.
  induction ss as [|p r IH]; intros i acc acc' H; cbn [collect_sections] in H.
  - injection H as <-. cbn. now rewrite Z.add_0_r.
  - destruct (collect_section shstrtbl i p acc) as [acc1|] eqn:E; [|discriminate].
    rewrite (IH _ _ _ H). cbn [map fold_right].
    rewrite collect_section_included in E. unfold included_size.
    destruct (included shstrtbl p) as [[|]|]; try discriminate;
      injection E as <-; cbn [fst].
    + unfold wrap32. rewrite Zplus_mod_idemp_l. f_equal. lia.
    + f_equal; try lia.
Qed.

(** The cursor [q] of the second loop moves over the sizes of all the
    sections, included or not. *)
Lemma load_sections_cursor shstrtbl ss :
  forall q w q' w',
    load_sections shstrtbl ss q w = Done q' w' ->
    wrap32 q' = wrap32 (q + fold_right Z.add 0 (map sh_size ss)).
Proof.
  induction ss as [|p r IH]; intros q w q' w' H; cbn [load_sections] in H.
  - injection H as <- _. cbn. now rewrite Z.add_0_r.
  - unfold bind in H.
    destruct (load_section shstrtbl p q w) as [u w1| | |]; try discriminate.
    rewrite (IH _ _ _ _ H). cbn [map fold_right].
    unfold ptr_add, wrap32. rewrite Zplus_mod_idemp_l. f_equal. lia.
Qed.

(** ** What [update_symbols] does with one entry *)

Section UpdateSymbol.

Variable resolve_symbol : list Elf32_Shdr -> list Z -> option dl_symbol.

(** Entry [i] of the table at [sym], by its section index: an undefined
    symbol that the lookup finds gets the value found; an absolute
    symbol is left alone; any other symbol gets the [sh_addr] field of
    the section header its index names. *)
Lemma update_symbol_cases sechdrs sym strtab i w st_shndx old :
  load16 (heap w) (ptr_add sym (sizeof_Sym * i + st_shndx_off)) = Some st_shndx ->
  load32 (heap w) (ptr_add sym (sizeof_Sym * i + st_value_off)) = Some old ->
  (forall st_name name dlsym,
      st_shndx = SHN_UNDEF ->
      load32 (heap w) (ptr_add sym (sizeof_Sym * i + st_name_off)) = Some st_name ->
      cstring_at strtab st_name = Some name ->
      resolve_symbol sechdrs name = Some dlsym ->
      0 <= dl_value dlsym < 2 ^ 32 ->
      exists m',
        update_symbol resolve_symbol sechdrs sym strtab i w
          = Done tt (set_heap m' w) /\
        load32 m' (ptr_add sym (sizeof_Sym * i + st_value_off))
          = Some (dl_value dlsym)) /\
  (st_shndx = SHN_ABS ->
   update_symbol resolve_symbol sechdrs sym strtab i w = Done tt w) /\
  (forall s,
      st_shndx <> SHN_UNDEF -> st_shndx <> SHN_ABS ->
      nth_error sechdrs (Z.to_nat st_shndx) = Some s ->
      0 <= sh_addr s < 2 ^ 32 ->
      exists m',
        update_symbol resolve_symbol sechdrs sym strtab i w
          = Done tt (set_heap m' w) /\
        load32 m' (ptr_add sym (sizeof_Sym * i + st_value_off)) = Some (sh_addr s)).
Proof.
  intros Hndx Hold. unfold update_symbol.
  rewrite (bind_Done _ _ _ _ _ (rd16_Done _ _ _ Hndx)).
  split; [|split].
  - intros st_name name dlsym -> Hname Hstr Hres Hv.
    rewrite Z.eqb_refl.
    rewrite (bind_Done _ _ _ _ _ (rd32_Done _ _ _ Hname)).
    rewrite Hstr, Hres.
    destruct (store32_defined (heap w) _ (dl_value dlsym) old Hold) as [m' Hm'].
    exists m'. split; [apply (wr32_Done _ _ _ _ Hm')|].
    apply (store32_load32 _ _ _ _ Hm' Hv).
  - intros ->. reflexivity.
  - intros s H1 H2 Hs Hv.
    destruct (Z.eqb_spec st_shndx SHN_UNDEF); [contradiction|].
    destruct (Z.eqb_spec st_shndx SHN_ABS); [contradiction|].
    rewrite Hs.
    destruct (store32_defined (heap w) _ (sh_addr s) old Hold) as [m' Hm'].
    exists m'. split; [apply (wr32_Done _ _ _ _ Hm')|].
    apply (store32_load32 _ _ _ _ Hm' Hv).
Qed.

End UpdateSymbol.

(** ** Runs on the sample objects *)

Ltac in_list := repeat first [left; reflexivity | right].

(** C1 at [Sample.obj_text]: the first [find_library "x"] loads the
    object into slot 0 and returns it, but the active list is still
    empty and the flags of the descriptor are 0, not FLAG_LINKED.  The
    second [find_library "x"] therefore opens and reads the file again,
    builds a second image and returns slot 1. *)
Theorem find_library_twice_loads_twice :
  match Sample.find Sample.obj_text 4096 (initial_world Sample.no_mem) with
  | Done (Some si) w1 =>
      si = 0%nat /\
      solist w1 = None /\
      option_map so_flags (nth_error (sopool w1) si) = Some 0 /\
      List.length (filter Sample.is_open (trace w1)) = 1%nat /\
      match Sample.find Sample.obj_text 8192 w1 with
      | Done (Some si') w2 =>
          si' = 1%nat /\
          List.length (filter Sample.is_open (trace w2)) = 2%nat /\
          option_map so_image (nth_error (sopool w2) si) = Some 4096 /\
          option_map so_image (nth_error (sopool w2) si') = Some 8192 /\
          solist w2 = None
      | _ => False
      end
  | _ => False
  end.
Proof. vm_compute. repeat split. Qed.

(** C2 at [Sample.obj_sym 0]: the second loop reads .data (section 2)
    into the image at 4096 + 16, yet the table that [update_symbols]
    and [do_relocate] are then given is the one read from the file, in
    which the address field of section 2 is 0. *)
Theorem load_sections_leaves_sh_addr :
  parse_sechdrs 5 (skipn 139 (Sample.obj_sym 0)) = Sample.sym_sechdrs 0 /\
  match load_sections Sample.shstrtab_sym (Sample.sym_sechdrs 0) 4096
          (Sample.sym_world 0) with
  | Done q' w' =>
      q' = 4096 + 16 + 8 + 32 + 31 /\
      trace w'
        = [ EvRead (Some (4096 + 24)) 32; EvSeek 76;
            EvRead (Some (4096 + 16)) 8; EvSeek 68;
            EvRead (Some 4096) 16; EvSeek 52 ] /\
      heap w' (4096 + 16) = Some 209 /\
      option_map sh_addr (nth_error (Sample.sym_sechdrs 0) 2) = Some 0
  | _ => False
  end.
Proof. vm_compute. repeat split. Qed.

(** C3 at [Sample.obj_sym]: symbol 1 is defined in .data, which is
    loaded at 4096 + 16.  With the address fields a relocatable object
    has (all 0), [update_symbols] looks for the symbol table at address
    0 and the run ends in an invalid access.  When the header of
    .symtab names the place of the table in the image, 4096 + 24, the
    value of symbol 1 becomes the 0 of the address field of .data. *)
Theorem internal_symbol_gets_sh_addr_of_file :
  Sample.load (Sample.obj_sym 0) 4096 (initial_world Sample.no_mem)
    = Faulted /\
  match Sample.load (Sample.obj_sym (4096 + 24)) 4096
          (initial_world Sample.no_mem) with
  | Done (Some si) w' =>
      option_map so_image (nth_error (sopool w') si) = Some 4096 /\
      In (EvRead (Some (4096 + 16)) 8) (trace w') /\
      load16 (heap w') (4096 + 24 + 16 + st_shndx_off) = Some 2 /\
      load32 (heap w') (4096 + 24 + 16 + st_value_off) = Some 0
  | _ => False
  end.
Proof.
  split; [vm_compute; reflexivity|].
  vm_compute. repeat split. in_list.
Qed.

(** C5 at [Sample.obj_rodata]: the sizes of the included sections .text
    and .data add up to 24 and the image has 24 bytes, but the cursor
    has also moved over the 32 bytes of .rodata, so that .data is read
    to 4096 + 48, into the block that lies behind the image. *)
Theorem load_sections_overruns_image :
  collect_sections Sample.shstrtab_rodata Sample.rodata_sechdrs 0 (0, 0%nat)
    = Some (24, 0%nat) /\
  match Sample.load Sample.obj_rodata 4096
          (initial_world Sample.neighbour_heap) with
  | Done (Some si) w' =>
      option_map so_image (nth_error (sopool w') si) = Some 4096 /\
      heap w' (4096 + 24) = None /\
      In (EvRead (Some (4096 + 48)) 8) (trace w') /\
      Sample.neighbour_heap (4096 + 48) = Some 170 /\
      heap w' (4096 + 48) = Some 209 /\
      heap w' (4096 + 16) = Some 0
  | _ => False
  end.
Proof.
  split; [vm_compute; reflexivity|].
  vm_compute. repeat split. in_list.
Qed.

(** C9 at the first allocation: [alloc_info] carves slot 0 and hands it
    out; afterwards slot 0 is on neither list.  The same holds after
    the successful load of [Sample.obj_text]. *)
Theorem allocated_descriptor_is_on_no_list :
  match alloc_info Sample.SOINFO_NAME_LEN "a" (initial_world Sample.no_mem) with
  | Done (Some si) w' =>
      si = 0%nat /\ socount w' = 1%nat /\
      walk (S SO_MAX) (sopool w') (freelist w') = Some [] /\
      walk (S SO_MAX) (sopool w') (solist w') = Some []
  | _ => False
  end /\
  match Sample.load Sample.obj_text 4096 (initial_world Sample.no_mem) with
  | Done (Some si) w' =>
      si = 0%nat /\ socount w' = 1%nat /\
      walk (S SO_MAX) (sopool w') (freelist w') = Some [] /\
      walk (S SO_MAX) (sopool w') (solist w') = Some []
  | _ => False
  end.
Proof. split; vm_compute; repeat split. Qed.

(** C6 at [Sample.obj_reloc]: the code takes the patch target from the
    [sh_addr] field of the section header, which [load_library] leaves
    as the file has it, not from the address at which the section was
    loaded.  With the address fields of a relocatable object (all 0),
    the tables are sought at address 0 and the run ends in an invalid
    access.  When the file names the places of .symtab and of the
    relocation section in the image but gives 5000 for .text, which is
    loaded at 4096, the words at 4096 and 4100 stay 16 and 32 and the
    words of the block at 5000 are patched instead.  Only when the file
    names the load address itself are the words at 4096 and 4100
    patched, to [old + V] and [old + V - T]. *)
Theorem relocation_target_is_sh_addr_of_file :
  Sample.load (Sample.obj_reloc 0 0 0) 4096 (initial_world Sample.no_mem)
    = Faulted /\
  match Sample.load (Sample.obj_reloc 5000 (4096 + 8) (4096 + 40)) 4096
          (initial_world Sample.other_block) with
  | Done (Some si) w' =>
      option_map so_image (nth_error (sopool w') si) = Some 4096 /\
      In (EvRead (Some 4096) 8) (trace w') /\
      load32 (heap w') 4096 = Some 16 /\
      load32 (heap w') 4100 = Some 32 /\
      load32 (heap w') 5000 = Some (100 + 8192) /\
      load32 (heap w') 5004 = Some (200 + 8192 - 5004)
  | _ => False
  end /\
  match Sample.load (Sample.obj_reloc 4096 (4096 + 8) (4096 + 40)) 4096
          (initial_world Sample.no_mem) with
  | Done (Some si) w' =>
      option_map so_image (nth_error (sopool w') si) = Some 4096 /\
      load32 (heap w') 4096 = Some (16 + 8192) /\
      load32 (heap w') 4100 = Some (32 + 8192 - 4100)
  | _ => False
  end.
Proof.
  split; [vm_compute; reflexivity|].
  split; vm_compute; repeat split. in_list.
Qed.

(** ** Relations that every step of the loader preserves *)

Create HintDb keeps.

(** Splits the goal along the [match]es it contains, innermost first. *)
Ltac case_matches :=
  repeat (cbv beta iota zeta;
          match goal with
          | |- context [match ?x with _ => _ end] =>
              lazymatch x with
              | context [match _ with _ => _ end] => fail
              | _ => destruct x
              end
          end);
  cbv beta iota zeta.

Section Preservation.

Variable SOINFO_NAME_LEN : nat.
Variable FLAG_LINKED FLAG_ERROR : Z.
Variable fs : string -> option (list Z).
Variable resolve_symbol : list Elf32_Shdr -> list Z -> option dl_symbol.

(** [R] holds between the worlds before and after a step. *)
Variable R : world -> world -> Prop.
Hypothesis R_refl : forall w, R w w.
Hypothesis R_trans : forall w1 w2 w3, R w1 w2 -> R w2 w3 -> R w1 w3.
(** Steps on the heap, the file and the trace. *)
Hypothesis R_same_pool : forall w w', same_pool w w' -> R w w'.
(** The steps on the pool. *)
Hypothesis R_alloc_info :
  forall name, preserves R (alloc_info SOINFO_NAME_LEN name).
Hypothesis R_free_info : forall si, preserves R (free_info si).
Hypothesis R_calloc :
  forall o si n, preserves R (calloc_for_image o si n).

Lemma preserves_ret {A} (a : A) : preserves R (ret a).
Proof. intros w. apply R_refl. Qed.

Lemma preserves_bind {A B} (c : M A) (k : A -> M B) :
  preserves R c -> (forall a, preserves R (k a)) -> preserves R (bind c k).
Proof.
  intros Hc Hk w. unfold bind. specialize (Hc w).
  destruct (c w) as [a w1|s w1| |]; try exact Hc; try exact I.
  specialize (Hk a w1). destruct (k a w1); try exact I; eauto.
Qed.

Lemma preserves_fault {A} : preserves R (@fault A).
Proof. intros w. exact I. Qed.

Ltac keeps_prim :=
  let w := fresh "w" in
  intros w; cbv beta iota zeta delta [ERROR rd16 rd32 wr32 lseek read close
                                      exit _open_lib];
  case_matches; try exact I; apply R_same_pool; repeat split.

Lemma preserves_ERROR d : preserves R (ERROR d).
Proof. keeps_prim. Qed.
Lemma preserves_rd16 a : preserves R (rd16 a).
Proof. keeps_prim. Qed.
Lemma preserves_rd32 a : preserves R (rd32 a).
Proof. keeps_prim. Qed.
Lemma preserves_wr32 a v : preserves R (wr32 a v).
Proof. keeps_prim. Qed.
Lemma preserves_lseek off : preserves R (lseek off).
Proof. keeps_prim. Qed.
Lemma preserves_read dst n : preserves R (read dst n).
Proof. keeps_prim. Qed.
Lemma preserves_close : preserves R close.
Proof. keeps_prim. Qed.
Lemma preserves_exit {A} s : preserves R (@exit A s).
Proof. keeps_prim. Qed.
Lemma preserves_open_lib name : preserves R (_open_lib fs name).
Proof. keeps_prim. Qed.

Hint Resolve preserves_ret preserves_fault preserves_ERROR preserves_rd16
  preserves_rd32 preserves_wr32 preserves_lseek preserves_read preserves_close
  preserves_exit preserves_open_lib R_alloc_info R_free_info R_calloc : keeps.

(** Follows the structure of a computation down to the hints. *)
Ltac keeps :=
  repeat first
    [ solve [auto with keeps]
    | apply preserves_bind; [|intros ?]
    | match goal with
      | |- preserves _ (if ?b then _ else _) => destruct b
      | |- preserves _ (match ?x with _ => _ end) => destruct x
      end ].

Lemma preserves_open_library name : preserves R (open_library fs name).
Proof. unfold open_library. keeps. Qed.

Lemma preserves_verify hdr name : preserves R (verify_elf_object hdr name).
Proof. unfold verify_elf_object. keeps. Qed.

Lemma preserves_elf_loadsection s q : preserves R (elf_loadsection s q).
Proof. unfold elf_loadsection. keeps. Qed.

Hint Resolve preserves_open_library preserves_verify
  preserves_elf_loadsection : keeps.

Lemma preserves_update_symbols_from sechdrs sym strtab n :
  forall i,
    preserves R (update_symbols_from resolve_symbol n i sechdrs sym strtab).
Proof.
  induction n as [|n IH]; intros i; cbn [update_symbols_from]; [keeps|].
  apply preserves_bind; [|intros _; apply IH].
  unfold update_symbol. keeps.
Qed.

Lemma preserves_update_symbols sechdrs symindex strtab :
  preserves R (update_symbols resolve_symbol sechdrs symindex strtab).
Proof.
  unfold update_symbols. destruct (nth_error sechdrs symindex) as [s|]; [|keeps].
  apply preserves_update_symbols_from.
Qed.

Lemma preserves_do_relocate_from sechdrs symindex relsec n :
  forall i, preserves R (do_relocate_from n i sechdrs symindex relsec).
Proof.
  induction n as [|n IH]; intros i; cbn [do_relocate_from]; [keeps|].
  apply preserves_bind.
  - unfold relocate_entry. keeps.
  - intros r. destruct (r =? 0); [apply IH | keeps].
Qed.

Lemma preserves_do_relocate sechdrs symindex relsec :
  preserves R (do_relocate sechdrs symindex relsec).
Proof.
  unfold do_relocate. destruct (nth_error sechdrs relsec) as [rs|]; [|keeps].
  apply preserves_do_relocate_from.
Qed.

Hint Resolve preserves_update_symbols preserves_do_relocate : keeps.

Lemma preserves_load_sections shstrtbl ss :
  forall q, preserves R (load_sections shstrtbl ss q).
Proof.
  induction ss as [|p r IH]; intros q; cbn [load_sections]; [keeps|].
  apply preserves_bind; [|intros _; apply IH].
  unfold load_section. keeps.
Qed.

Lemma preserves_relocate_sections sechdrs symindex n :
  forall i err, preserves R (relocate_sections sechdrs symindex n i err).
Proof.
  induction n as [|n IH]; intros i err; cbn [relocate_sections]; [keeps|].
  destruct (nth_error sechdrs i) as [s|]; [|keeps].
  apply preserves_bind; [keeps|].
  intros e. destruct (negb (e =? 0)); [keeps | apply IH].
Qed.

Hint Resolve preserves_load_sections preserves_relocate_sections : keeps.

Lemma preserves_load_library o name :
  preserves R (load_library SOINFO_NAME_LEN fs resolve_symbol o name).
Proof.
  unfold load_library, read_header, read_section_tables, link_sections,
    goto_fail.
  keeps.
Qed.

Lemma preserves_find_library o name :
  preserves R (find_library SOINFO_NAME_LEN FLAG_LINKED FLAG_ERROR fs
                 resolve_symbol o name).
Proof.
  intros w. unfold find_library, bind.
  assert (Hscan : forall fuel si,
             match find_in_solist FLAG_LINKED FLAG_ERROR fuel name si w with
             | Done _ w' | Exited _ w' => same_pool w w'
             | _ => True
             end).
  { induction fuel as [|k IH]; intros si; cbn [find_in_solist]; [exact I|].
    destruct si as [i|]; [|repeat split].
    destruct (nth_error (sopool w) i) as [d|]; [|exact I].
    destruct (String.eqb name (so_name d)); [|apply IH].
    destruct (negb _); [repeat split|].
    destruct (negb _); repeat split. }
  specialize (Hscan (S SO_MAX) (solist w)).
  destruct (find_in_solist _ _ _ _ _ w) as [r w1|s w1| |]; try exact I;
    [|apply R_same_pool; exact Hscan].
  destruct r as [si|]; [apply R_same_pool; exact Hscan|].
  pose proof (preserves_load_library o name w1) as Hl.
  destruct (load_library _ _ _ _ _ w1); try exact I;
    (eapply R_trans; [apply R_same_pool; exact Hscan | exact Hl]).
Qed.

End Preservation.

(** ** The two lists stay apart *)

Lemma length_upd {A} (x : A) l : forall i, List.length (upd i x l) = List.length l.
Proof.
  induction l as [|h t IH]; intros [|i]; cbn [upd List.length]; auto.
Qed.

Lemma nth_error_upd_same {A} (x : A) l :
  forall i, (i < List.length l)%nat -> nth_error (upd i x l) i = Some x.
Proof.
  induction l as [|h t IH]; intros [|i] H; cbn [upd List.length] in *;
    try lia; cbn [nth_error]; [reflexivity|].
  apply IH. lia.
Qed.

Lemma nth_error_upd_other {A} (x : A) l :
  forall i j, i <> j -> nth_error (upd i x l) j = nth_error l j.
Proof.
  induction l as [|h t IH]; intros [|i] [|j] H; cbn [upd nth_error];
    try reflexivity; try congruence.
  apply IH. congruence.
Qed.

(** A list is still there when the [next] fields of its slots are. *)
Lemma is_list_agree pool pool' h l :
  is_list pool h l ->
  (forall j d, In j l -> nth_error pool j = Some d ->
               exists d', nth_error pool' j = Some d' /\ so_next d' = so_next d) ->
  is_list pool' h l.
Proof.
  induction 1 as [|i d l Hd Hl IH]; intros Hag.
  - constructor.
  - destruct (Hag i d (or_introl eq_refl) Hd) as (d' & Hd' & Hn).
    econstructor; [exact Hd'|]. rewrite Hn. apply IH.
    intros j dj Hj. apply Hag. now right.
Qed.

Lemma is_list_upd_outside pool h l i x :
  is_list pool h l -> ~ In i l -> is_list (upd i x pool) h l.
Proof.
  intros Hl Hi. apply (is_list_agree _ _ _ _ Hl).
  intros j d Hj Hd. exists d. split; [|reflexivity].
  rewrite nth_error_upd_other; [exact Hd|]. intros ->. contradiction.
Qed.

Lemma is_list_upd_same_next pool h l i d x :
  is_list pool h l -> nth_error pool i = Some d -> so_next x = so_next d ->
  is_list (upd i x pool) h l.
Proof.
  intros Hl Hd Hn. apply (is_list_agree _ _ _ _ Hl).
  intros j dj Hj Hdj. destruct (Nat.eq_dec i j) as [<-|Hne].
  - exists x. split.
    + apply nth_error_upd_same. apply nth_error_Some. congruence.
    + congruence.
  - exists dj. split; [|reflexivity]. now rewrite nth_error_upd_other.
Qed.

Lemma lists_ok_same_pool w w' : same_pool w w' -> lists_ok w -> lists_ok w'.
Proof.
  intros (Hc & Hp & Hf & Hs). unfold lists_ok. now rewrite Hc, Hp, Hf, Hs.
Qed.

Section Lists.

Variable SOINFO_NAME_LEN : nat.

Lemma lists_ok_take_free name w :
  lists_ok w ->
  match take_free name w with
  | Done _ w' | Exited _ w' => lists_ok w'
  | _ => True
  end.
Proof.
  intros (Hlen & Hcnt & lf & la & Hlf & Hla & Hnd & Hb). unfold take_free.
  destruct (freelist w) as [si|] eqn:Hf; [|exact I].
  destruct (nth_error (sopool w) si) as [d|] eqn:Hd; [|exact I].
  inversion Hlf as [|i d0 lf' Hd0 Hlf' E1]; subst.
  assert (d0 = d) by congruence. subst d0.
  cbn [app] in Hnd. apply NoDup_cons_iff in Hnd as [Hsi Hnd].
  split; [cbn; now rewrite length_upd|]. split; [exact Hcnt|].
  exists lf', la. cbn [sopool freelist solist socount set_sopool set_freelist].
  repeat split.
  - apply is_list_upd_outside; [exact Hlf'|].
    intros H. apply Hsi. apply in_or_app. now left.
  - apply is_list_upd_outside; [exact Hla|].
    intros H. apply Hsi. apply in_or_app. now right.
  - exact Hnd.
  - intros i Hi. apply Hb. now right.
Qed.

Lemma lists_ok_alloc_info name :
  preserves (fun w w' => lists_ok w -> lists_ok w')
            (alloc_info SOINFO_NAME_LEN name).
Proof.
  intros w. unfold alloc_info.
  destruct (SOINFO_NAME_LEN <=? String.length name)%nat.
  { cbn. apply lists_ok_same_pool. repeat split. }
  destruct (freelist w) as [f|] eqn:Hf.
  { pose proof (lists_ok_take_free name w) as H.
    destruct (take_free name w); try exact I; exact H. }
  destruct (Nat.eqb_spec (socount w) SO_MAX) as [Hfull|Hfree].
  { cbn. apply lists_ok_same_pool. repeat split. }
  unfold bind, carve_slot.
  destruct (nth_error (sopool w) (socount w)) as [d|] eqn:Hd; [|exact I].
  set (w1 := set_sopool _ _).
  pose proof (lists_ok_take_free name w1) as H.
  destruct (take_free name w1); try exact I; intros Hok; apply H; clear H.
  all: destruct Hok as (Hlen & Hcnt & lf & la & Hlf & Hla & Hnd & Hb).
  all: rewrite Hf in Hlf; inversion Hlf; subst lf; cbn [app] in *.
  all: assert (Hfresh : ~ In (socount w) la)
    by (intros Hin; specialize (Hb _ Hin); lia).
  all: split; [cbn; now rewrite length_upd|].
  all: split; [cbn; lia|].
  all: exists [socount w], la; cbn [w1 sopool freelist solist socount
                                   set_sopool set_freelist set_socount].
  all: repeat split.
  all: try (econstructor;
            [apply nth_error_upd_same; apply nth_error_Some; congruence
            | constructor]).
  all: try (apply is_list_upd_outside; assumption).
  all: try (cbn [app]; constructor; assumption).
  all: intros i [<-|Hi]; [lia | specialize (Hb _ Hi); lia].
Qed.

Lemma lists_ok_calloc o si n :
  preserves (fun w w' => lists_ok w -> lists_ok w') (calloc_for_image o si n).
Proof.
  intros w. unfold calloc_for_image.
  destruct (nth_error (sopool w) si) as [d|] eqn:Hd; [|exact I].
  assert (H : forall img,
             lists_ok w ->
             lists_ok (set_sopool (upd si (set_image img d) (sopool w)) w)).
  { intros img (Hlen & Hcnt & lf & la & Hlf & Hla & Hnd & Hb).
    split; [cbn; now rewrite length_upd|]. split; [exact Hcnt|].
    exists lf, la. cbn [sopool freelist solist socount set_sopool].
    repeat split; try assumption;
      eapply is_list_upd_same_next; eauto. }
  destruct (calloc_image o) as [q|]; [|apply H].
  intros Hok.
  apply (lists_ok_same_pool
           (set_sopool (upd si (set_image q d) (sopool w)) w));
    [repeat split | apply H, Hok].
Qed.

(** The loop of [free_info] on a list that holds [si]. *)
Lemma scan_solist_found pool si l1 :
  forall trav l2 prev fuel w,
    is_list pool trav (l1 ++ si :: l2) -> ~ In si l1 ->
    (List.length l1 < fuel)%nat ->
    scan_solist fuel pool si trav prev w = Done (Some si, last_of l1 prev) w.
Proof.
  induction l1 as [|a l1 IH]; intros trav l2 prev fuel w Hl Hsi Hfuel;
    (destruct fuel as [|k]; [cbn in Hfuel; lia|]);
    inversion Hl as [|i d l Hd Hl' E1]; subst; cbn [scan_solist].
  - rewrite Nat.eqb_refl. reflexivity.
  - destruct (Nat.eqb_spec a si) as [->|Hne]; [exfalso; apply Hsi; now left|].
    rewrite Hd.
    rewrite (IH _ l2 (Some a) k w Hl'); [|intros H; apply Hsi; now right
                                         |cbn in Hfuel; lia].
    f_equal. f_equal. unfold last_of. cbn [rev].
    destruct (rev l1) as [|p r]; reflexivity.
Qed.

Lemma last_of_None l1 : last_of l1 None = None -> l1 = [].
Proof.
  unfold last_of. destruct (rev l1) as [|p r] eqn:E; [|discriminate].
  intros _. apply (f_equal (@rev nat)) in E. now rewrite rev_involutive in E.
Qed.

Lemma last_of_Some l1 p :
  last_of l1 None = Some p -> exists l0, l1 = l0 ++ [p].
Proof.
  unfold last_of. destruct (rev l1) as [|p' r] eqn:E; [discriminate|].
  intros [= ->]. exists (rev r).
  apply (f_equal (@rev nat)) in E. now rewrite rev_involutive in E.
Qed.

(** Taking [si] out of a list, behind [p]. *)
Lemma is_list_unlink pool pool' p si dp dsi dp' l2 :
  nth_error pool p = Some dp ->
  nth_error pool si = Some dsi ->
  nth_error pool' p = Some dp' ->
  so_next dp' = so_next dsi ->
  (forall j, j <> p -> j <> si -> nth_error pool' j = nth_error pool j) ->
  forall l0 h,
    is_list pool h (l0 ++ p :: si :: l2) ->
    NoDup (l0 ++ p :: si :: l2) ->
    is_list pool' h (l0 ++ p :: l2).
Proof.
  intros Hp Hsi Hp' Hn Hag. induction l0 as [|a l0 IH]; intros h Hl Hnd;
    cbn [app] in *.
  - inversion Hl as [|i d l Hd Hl1 E1]; subst.
    inversion Hl1 as [|i d1 l Hd1 Hl2 E2]; subst.
    assert (d1 = dsi) by congruence. subst d1.
    econstructor; [exact Hp'|]. rewrite Hn.
    apply NoDup_cons_iff in Hnd as [Hp_out Hnd].
    apply NoDup_cons_iff in Hnd as [Hsi_out _].
    apply (is_list_agree _ _ _ _ Hl2).
    intros j dj Hj Hdj. exists dj. split; [|reflexivity].
    rewrite Hag; [exact Hdj| |].
    + intros ->. apply Hp_out. now right.
    + intros ->. contradiction.
  - inversion Hl as [|i d l Hd Hl1 E1]; subst.
    apply NoDup_cons_iff in Hnd as [Ha Hnd].
    econstructor.
    + rewrite Hag; [exact Hd| |].
      * intros ->. apply Ha. apply in_or_app. right. now left.
      * intros ->. apply Ha. apply in_or_app. right. right. now left.
    + now apply IH.
Qed.

Lemma NoDup_disjoint (l1 l2 : list nat) x :
  NoDup (l1 ++ l2) -> In x l1 -> In x l2 -> False.
Proof.
  induction l1 as [|a l1 IH]; intros Hnd H1 H2; [destruct H1|].
  cbn [app] in Hnd. apply NoDup_cons_iff in Hnd as [Ha Hnd].
  destruct H1 as [->|H1]; [|now apply IH].
  apply Ha. apply in_or_app. now right.
Qed.

Lemma is_list_entry pool h l :
  is_list pool h l -> forall i, In i l -> exists d, nth_error pool i = Some d.
Proof.
  induction 1 as [|j d l Hd Hl IH]; intros i Hi; [destruct Hi|].
  destruct Hi as [<-|Hi]; eauto.
Qed.

(** [free_info] on a descriptor that is in the active list behind [p]:
    it moves from the active list to the head of the free list. *)
Lemma lists_ok_unlinked w si p dp dsi lf l0 l2 :
  List.length (sopool w) = SO_MAX ->
  (socount w <= SO_MAX)%nat ->
  is_list (sopool w) (freelist w) lf ->
  is_list (sopool w) (solist w) (l0 ++ p :: si :: l2) ->
  NoDup (lf ++ l0 ++ p :: si :: l2) ->
  (forall i, In i (lf ++ l0 ++ p :: si :: l2) -> (i < socount w)%nat) ->
  nth_error (sopool w) p = Some dp ->
  nth_error (sopool w) si = Some dsi ->
  lists_ok
    (set_freelist (Some si)
       (set_sopool
          (upd si (set_next (freelist w) dsi)
             (upd p (set_next (so_next dsi) dp) (sopool w))) w)).
Proof.
  intros Hlen Hcnt Hlf Hla Hnd Hb Hp Hsi.
  set (pool2 := upd si _ _).
  assert (Hpsi : p <> si).
  { apply NoDup_app_remove_l in Hnd. apply NoDup_app_remove_l in Hnd.
    apply NoDup_cons_iff in Hnd as [H _]. intros ->. apply H. now left. }
  assert (Hp_lf : ~ In p lf /\ ~ In si lf).
  { split; intros H;
      apply (NoDup_disjoint _ _ _ Hnd H);
      apply in_or_app; right; [now left | right; now left]. }
  assert (Hag : forall j, j <> p -> j <> si ->
                          nth_error pool2 j = nth_error (sopool w) j).
  { intros j H1 H2. unfold pool2.
    rewrite !nth_error_upd_other by congruence. reflexivity. }
  assert (Hp2 : nth_error pool2 p = Some (set_next (so_next dsi) dp)).
  { unfold pool2. rewrite nth_error_upd_other by congruence.
    apply nth_error_upd_same. apply nth_error_Some. congruence. }
  assert (Hsi2 : nth_error pool2 si = Some (set_next (freelist w) dsi)).
  { unfold pool2. apply nth_error_upd_same. rewrite length_upd.
    apply nth_error_Some. congruence. }
  split; [cbn; unfold pool2; now rewrite !length_upd|].
  split; [exact Hcnt|].
  exists (si :: lf), (l0 ++ p :: l2).
  cbn [sopool freelist solist socount set_sopool set_freelist].
  repeat split.
  - econstructor; [exact Hsi2|]. cbn [so_next set_next].
    apply (is_list_agree _ _ _ _ Hlf).
    intros j dj Hj Hdj. exists dj. split; [|reflexivity].
    rewrite Hag; [exact Hdj | |]; intros ->; tauto.
  - apply (is_list_unlink (sopool w) pool2 p si dp dsi _ l2 Hp Hsi Hp2
             eq_refl Hag l0 _ Hla).
    now apply NoDup_app_remove_l in Hnd.
  - apply (Permutation_NoDup (l := lf ++ l0 ++ p :: si :: l2)); [|exact Hnd].
    cbn [app]. rewrite (app_assoc lf l0 (p :: si :: l2)).
    rewrite (app_assoc lf l0 (p :: l2)).
    change (p :: si :: l2) with ([p] ++ si :: l2).
    change (p :: l2) with ([p] ++ l2).
    rewrite !app_assoc. symmetry. apply Permutation_middle.
  - intros i Hi. apply Hb.
    cbn [app] in Hi. destruct Hi as [<-|Hi].
    + apply in_or_app. right. apply in_or_app. right. right. now left.
    + apply in_app_or in Hi as [Hi|Hi]; [apply in_or_app; now left|].
      apply in_or_app. right.
      apply in_app_or in Hi as [Hi|Hi]; apply in_or_app; [now left|].
      right. destruct Hi as [<-|Hi]; [now left | right; now right].
Qed.

Lemma lists_ok_free_info si :
  preserves (fun w w' => lists_ok w -> lists_ok w') (free_info si).
Proof.
  intros w.
  assert (H : lists_ok w ->
              match free_info si w with
              | Done _ w' | Exited _ w' => lists_ok w'
              | _ => True
              end).
  { intros Hok.
    pose proof Hok as (Hlen & Hcnt & lf & la & Hlf & Hla & Hnd & Hb).
    pose proof (is_list_length _ _ _ Hla) as Hll. rewrite Hlen in Hll.
    unfold free_info, bind.
    destruct (in_dec Nat.eq_dec si la) as [Hin|Hout].
    - destruct (in_split _ _ Hin) as (k1 & k2 & ->).
      assert (Hk1 : ~ In si k1).
      { apply NoDup_app_remove_l in Hnd. apply NoDup_remove_2 in Hnd.
        intros H. apply Hnd. apply in_or_app. now left. }
      rewrite (scan_solist_found _ _ k1 _ k2 None (S SO_MAX) w Hla Hk1)
        by (rewrite length_app in Hll; cbn in Hll; lia).
      destruct (last_of k1 None) as [p|] eqn:Hlast; [|exact I].
      destruct (last_of_Some _ _ Hlast) as [l0 ->].
      rewrite <- app_assoc in Hla, Hnd, Hb. cbn [app] in Hla, Hnd, Hb.
      destruct (is_list_entry _ _ _ Hla si) as [dsi Hsi].
      { apply in_or_app. right. right. now left. }
      destruct (is_list_entry _ _ _ Hla p) as [dp Hp].
      { apply in_or_app. right. now left. }
      assert (Hpsi : p <> si).
      { intros ->. apply Hk1. apply in_or_app. right. now left. }
      rewrite Hsi, Hp. rewrite nth_error_upd_other, Hsi by exact Hpsi.
      now apply (lists_ok_unlinked w si p dp dsi lf l0 k2).
    - destruct (scan_solist_absent _ si _ _ Hla Hout (S SO_MAX) None w
                  ltac:(lia)) as [p' ->].
      destruct (nth_error (sopool w) si); [|exact I].
      apply (lists_ok_same_pool w); [repeat split | exact Hok]. }
  destruct (free_info si w); try exact I; exact H.
Qed.

End Lists.

Section Invariants.

Variable SOINFO_NAME_LEN : nat.
Variable FLAG_LINKED FLAG_ERROR : Z.
Variable fs : string -> option (list Z).
Variable resolve_symbol : list Elf32_Shdr -> list Z -> option dl_symbol.

(** No run of [find_library] changes [solist]: nothing in linker.c
    assigns it.  From the initial state, where it is NULL, the active
    list is therefore empty before every call, the loop of
    [find_library] finds no name, and every call is a full
    [load_library]. *)
Lemma find_library_keeps_solist o name :
  preserves (fun w w' => solist w' = solist w)
            (find_library SOINFO_NAME_LEN FLAG_LINKED FLAG_ERROR fs
               resolve_symbol o name).
Proof.
  apply preserves_find_library.
  - reflexivity.
  - intros w1 w2 w3 H1 H2. congruence.
  - intros w w' (_ & _ & _ & H). exact H.
  - intros nm w. unfold alloc_info.
    destruct (SOINFO_NAME_LEN <=? String.length nm)%nat; [reflexivity|].
    unfold bind, carve_slot, take_free, ERROR, ret.
    case_matches; first [exact I | reflexivity].
  - intros si w. unfold free_info, bind.
    destruct (scan_solist (S SO_MAX) (sopool w) si (solist w) None w)
      as [[trav prev] w1|s w1| |] eqn:E; try exact I.
    + assert (w1 = w) as ->.
      { revert E. generalize (sopool w) (solist w) (@None nat) (S SO_MAX).
        intros pool trav0 prev0 fuel. revert trav0 prev0.
        induction fuel as [|k IH]; intros trav0 prev0; cbn [scan_solist];
          [discriminate|].
        destruct trav0 as [t|]; [|now intros [= _ _ <-]].
        destruct (t =? si)%nat; [now intros [= _ _ <-]|].
        destruct (nth_error pool t); [apply IH | discriminate]. }
      unfold ERROR, fault. case_matches; first [exact I | reflexivity].
    + exfalso. revert E.
      generalize (sopool w) (solist w) (@None nat) (S SO_MAX).
      intros pool trav0 prev0 fuel. revert trav0 prev0.
      induction fuel as [|k IH]; intros trav0 prev0; cbn [scan_solist];
        [discriminate|].
      destruct trav0 as [t|]; [|discriminate].
      destruct (t =? si)%nat; [discriminate|].
      destruct (nth_error pool t); [apply IH | discriminate].
  - intros o' si n w. unfold calloc_for_image.
    destruct (nth_error (sopool w) si); [|exact I].
    destruct (calloc_image o'); reflexivity.
Qed.

Lemma find_library_empty_solist o name w :
  solist w = None ->
  find_library SOINFO_NAME_LEN FLAG_LINKED FLAG_ERROR fs resolve_symbol
    o name w
  = load_library SOINFO_NAME_LEN fs resolve_symbol o name w.
Proof. intros H. unfold find_library. rewrite H. reflexivity. Qed.

(** What does hold of the two lists: they are proper lists of carved
    slots without a slot in common, in the initial state and after
    every allocate, release, load and find that returns or exits. *)
Lemma lists_ok_initial m : lists_ok (initial_world m).
Proof.
  split; [reflexivity|]. split; [cbn; unfold SO_MAX; lia|].
  exists [], []. repeat split; try constructor. intros i [].
Qed.

Lemma lists_ok_load_library o name :
  preserves (fun w w' => lists_ok w -> lists_ok w')
            (load_library SOINFO_NAME_LEN fs resolve_symbol o name).
Proof.
  apply preserves_load_library; auto.
  - intros w w' H. now apply lists_ok_same_pool.
  - apply lists_ok_alloc_info.
  - apply lists_ok_free_info.
  - apply lists_ok_calloc.
Qed.

Lemma lists_ok_find_library o name :
  preserves (fun w w' => lists_ok w -> lists_ok w')
            (find_library SOINFO_NAME_LEN FLAG_LINKED FLAG_ERROR fs
               resolve_symbol o name).
Proof.
  apply preserves_find_library; auto.
  - intros w w' H. now apply lists_ok_same_pool.
  - apply lists_ok_alloc_info.
  - apply lists_ok_free_info.
  - apply lists_ok_calloc.
Qed.

Lemma lists_ok_never_both w lf la i :
  lists_ok w ->
  is_list (sopool w) (freelist w) lf ->
  is_list (sopool w) (solist w) la ->
  In i lf -> In i la -> False.
Proof.
  intros (_ & _ & lf' & la' & Hlf' & Hla' & Hnd & _) Hlf Hla.
  rewrite (is_list_det _ _ _ Hlf _ Hlf'), (is_list_det _ _ _ Hla _ Hla').
  now apply NoDup_disjoint.
Qed.

End Invariants.

(** ** Unresolved symbols and unsupported relocations *)

Lemma bind_Exited {A B} (c : M A) (k : A -> M B) w s w' :
  c w = Exited s w' -> bind c k w = Exited s w'.
Proof. unfold bind. now intros ->. Qed.

Section HardFailure.

Variable SOINFO_NAME_LEN : nat.
Variable fs : string -> option (list Z).
Variable resolve_symbol : list Elf32_Shdr -> list Z -> option dl_symbol.

Lemma update_symbols_from_app j :
  forall n i sechdrs sym strtab w,
    update_symbols_from resolve_symbol (j + n) i sechdrs sym strtab w
    = bind (update_symbols_from resolve_symbol j i sechdrs sym strtab)
           (fun _ => update_symbols_from resolve_symbol n (i + Z.of_nat j)
                       sechdrs sym strtab) w.
Proof.
  induction j as [|j IH]; intros n i sechdrs sym strtab w.
  - cbn [update_symbols_from Nat.add]. unfold bind, ret.
    now rewrite Z.add_0_r.
  - cbn [update_symbols_from Nat.add]. unfold bind at 1 2 3.
    destruct (update_symbol resolve_symbol sechdrs sym strtab i w); try reflexivity.
    rewrite IH. unfold bind.
    replace (i + 1 + Z.of_nat j) with (i + Z.of_nat (S j)) by lia.
    reflexivity.
Qed.

(** An undefined symbol for whose name the lookup returns NULL ends
    the process. *)
Lemma update_symbol_miss sechdrs sym strtab i w st_name name :
  load16 (heap w) (ptr_add sym (sizeof_Sym * i + st_shndx_off)) = Some SHN_UNDEF ->
  load32 (heap w) (ptr_add sym (sizeof_Sym * i + st_name_off)) = Some st_name ->
  cstring_at strtab st_name = Some name ->
  resolve_symbol sechdrs name = None ->
  update_symbol resolve_symbol sechdrs sym strtab i w
  = Exited (-1) (log (EvError (UnknownSymbol name)) w).
Proof.
  intros Hndx Hname Hstr Hres. unfold update_symbol.
  rewrite (bind_Done _ _ _ _ _ (rd16_Done _ _ _ Hndx)).
  rewrite Z.eqb_refl.
  rewrite (bind_Done _ _ _ _ _ (rd32_Done _ _ _ Hname)).
  rewrite Hstr, Hres. reflexivity.
Qed.

(** An entry of a kind other than R_386_32 and R_386_PC32 is reported
    and nothing is patched. *)
Lemma relocate_entry_unsupported sechdrs symindex relsec i w rs ts ss
    r_offset r_info :
  nth_error sechdrs relsec = Some rs ->
  nth_error sechdrs (Z.to_nat (sh_info rs)) = Some ts ->
  nth_error sechdrs symindex = Some ss ->
  load32 (heap w) (ptr_add (sh_addr rs) (sizeof_Rel * i + r_offset_off))
    = Some r_offset ->
  load32 (heap w) (ptr_add (sh_addr rs) (sizeof_Rel * i + r_info_off))
    = Some r_info ->
  ELF32_R_TYPE r_info <> R_386_32 ->
  ELF32_R_TYPE r_info <> R_386_PC32 ->
  relocate_entry sechdrs symindex relsec i w
  = Done (-1) (log (EvError (UnsupportedRelocation (ELF32_R_TYPE r_info))) w).
Proof.
  intros Hrs Hts Hss Hoff Hinfo H1 H2. unfold relocate_entry.
  rewrite Hrs, Hts, Hss.
  rewrite (bind_Done _ _ _ _ _ (rd32_Done _ _ _ Hoff)).
  rewrite (bind_Done _ _ _ _ _ (rd32_Done _ _ _ Hinfo)).
  destruct (Z.eqb_spec (ELF32_R_TYPE r_info) R_386_32); [contradiction|].
  destruct (Z.eqb_spec (ELF32_R_TYPE r_info) R_386_PC32); [contradiction|].
  reflexivity.
Qed.

(** When the third loop has passed [a] sections, it goes on with the
    next one. *)
Lemma relocate_sections_app sechdrs symindex a :
  forall b i err w w',
    relocate_sections sechdrs symindex a i err w = Done false w' ->
    exists err',
      relocate_sections sechdrs symindex (a + b) i err w
      = relocate_sections sechdrs symindex b (i + a) err' w'.
Proof.
  induction a as [|a IH]; intros b i err w w' H.
  - cbn [relocate_sections] in H. injection H as <-.
    exists err. cbn [Nat.add]. now rewrite Nat.add_0_r.
  - cbn [relocate_sections Nat.add] in H |- *.
    destruct (nth_error sechdrs i) as [s|]; [|discriminate].
    unfold bind in H |- *.
    destruct ((if sh_type s =? SHT_REL
               then do_relocate sechdrs symindex i else ret err) w)
      as [e w1| | |]; try discriminate.
    destruct (negb (e =? 0)); [discriminate|].
    destruct (IH b _ _ _ _ H) as [err' ->].
    exists err'. now rewrite Nat.add_succ_r.
Qed.

(** An undefined symbol that the lookup finds gets the value of the
    entry found. *)
Lemma update_symbol_hit sechdrs sym strtab i w st_name name dlsym old :
  load16 (heap w) (ptr_add sym (sizeof_Sym * i + st_shndx_off)) = Some SHN_UNDEF ->
  load32 (heap w) (ptr_add sym (sizeof_Sym * i + st_name_off)) = Some st_name ->
  cstring_at strtab st_name = Some name ->
  resolve_symbol sechdrs name = Some dlsym ->
  load32 (heap w) (ptr_add sym (sizeof_Sym * i + st_value_off)) = Some old ->
  exists m',
    update_symbol resolve_symbol sechdrs sym strtab i w = Done tt (set_heap m' w).
Proof.
  intros Hndx Hname Hstr Hres Hold. unfold update_symbol.
  rewrite (bind_Done _ _ _ _ _ (rd16_Done _ _ _ Hndx)).
  rewrite Z.eqb_refl.
  rewrite (bind_Done _ _ _ _ _ (rd32_Done _ _ _ Hname)).
  rewrite Hstr, Hres.
  destruct (store32_defined (heap w) _ (dl_value dlsym) old Hold) as [m' Hm'].
  exists m'. apply (wr32_Done _ _ _ _ Hm').
Qed.

(** [load_library] up to the call of [update_symbols]. *)
Lemma load_library_to_symbols
    (o : oracle) (name : string) (w w1 w2 w3 w4 w5 w6 : world)
    (hdr : list Z) (si : nat) (sechdrs : list Elf32_Shdr) (shstrtbl : list Z)
    (totalsize : Z) (symindex : nat) (q q' : Z) :
  open_library fs name w = Done true w1 ->
  read_header o name w1 = Done (Some hdr) w2 ->
  alloc_info SOINFO_NAME_LEN name w2 = Done (Some si) w3 ->
  read_section_tables o hdr w3 = Done (Some (sechdrs, shstrtbl)) w4 ->
  collect_sections shstrtbl sechdrs 0 (0, 0%nat) = Some (totalsize, symindex) ->
  calloc_for_image o si totalsize w4 = Done (Some q) w5 ->
  load_sections shstrtbl sechdrs q w5 = Done q' w6 ->
  load_library SOINFO_NAME_LEN fs resolve_symbol o name w
  = bind (update_symbols resolve_symbol sechdrs symindex shstrtbl)
      (fun _ =>
         bind (relocate_sections sechdrs symindex
                 (Z.to_nat (e_shnum hdr - 1)) 1 (err_garbage o))
           (fun failed =>
              if failed then goto_fail (Some si)
              else bind close (fun _ => ret (Some si)))) w6.
Proof.
  intros Hopen Hhdr Halloc Htab Hcoll Hcalloc Hload.
  unfold load_library.
  rewrite (bind_Done _ _ _ _ _ Hopen). cbn [negb].
  rewrite (bind_Done _ _ _ _ _ Hhdr).
  rewrite (bind_Done _ _ _ _ _ Halloc).
  rewrite (bind_Done _ _ _ _ _ Htab).
  unfold link_sections. rewrite Hcoll.
  rewrite (bind_Done _ _ _ _ _ Hcalloc).
  rewrite (bind_Done _ _ _ _ _ Hload). reflexivity.
Qed.

(** C7 (amended): let every step of [load_library] up to the call of
    [update_symbols] succeed: the file is opened, its header accepted, a
    descriptor allocated, the two tables read, the image allocated and
    the sections copied.  The symbol table and the relocation entries
    are read at the addresses in the [sh_addr] fields of their section
    headers, as the file has them ([load_library] does not set these
    fields; where they are 0 the tables are sought at address 0).

    (1) If [update_symbols] has passed [j] symbols, the next one is
    readable at that address and undefined, and [resolve_symbol]
    returns NULL for its name, then the miss is reported and
    [exit(-1)] ends the process: no later symbol is processed and no
    caller gets a result.

    (2) If [update_symbols] returns, the loop over the sections has
    passed [a] sections without a failure and comes to one of type
    SHT_REL, [do_relocate] has applied [j] of its entries, and entry
    [j] is readable and of a kind other than R_386_32 and R_386_PC32,
    then the kind is reported and [do_relocate] returns -1 before any
    later entry; [load_library] takes its [fail] path ([free_info],
    which returns, and [close]) and returns NULL to its caller, and the
    process goes on. *)
Theorem load_library_hard_failure
    (o : oracle) (name : string) (w w1 w2 w3 w4 w5 w6 : world)
    (hdr : list Z) (si : nat) (sechdrs : list Elf32_Shdr) (shstrtbl : list Z)
    (totalsize : Z) (symindex : nat) (q q' : Z) (symsec : Elf32_Shdr) :
  open_library fs name w = Done true w1 ->
  read_header o name w1 = Done (Some hdr) w2 ->
  alloc_info SOINFO_NAME_LEN name w2 = Done (Some si) w3 ->
  read_section_tables o hdr w3 = Done (Some (sechdrs, shstrtbl)) w4 ->
  collect_sections shstrtbl sechdrs 0 (0, 0%nat) = Some (totalsize, symindex) ->
  calloc_for_image o si totalsize w4 = Done (Some q) w5 ->
  load_sections shstrtbl sechdrs q w5 = Done q' w6 ->
  nth_error sechdrs symindex = Some symsec ->
  (forall (j n : nat) (w7 : world) (st_name : Z) (nm : list Z),
      Z.to_nat (sh_size symsec / sizeof_Sym - 1) = (j + S n)%nat ->
      update_symbols_from resolve_symbol j 1 sechdrs (sh_addr symsec) shstrtbl w6
        = Done tt w7 ->
      load16 (heap w7)
             (ptr_add (sh_addr symsec) (sizeof_Sym * (1 + Z.of_nat j) + st_shndx_off))
        = Some SHN_UNDEF ->
      load32 (heap w7)
             (ptr_add (sh_addr symsec) (sizeof_Sym * (1 + Z.of_nat j) + st_name_off))
        = Some st_name ->
      cstring_at shstrtbl st_name = Some nm ->
      resolve_symbol sechdrs nm = None ->
      load_library SOINFO_NAME_LEN fs resolve_symbol o name w
      = Exited (-1) (log (EvError (UnknownSymbol nm)) w7))
  /\
  (forall (a b j n : nat) (rs ts : Elf32_Shdr) (w7 w8 w9 w10 : world)
          (r_offset r_info : Z),
      update_symbols resolve_symbol sechdrs symindex shstrtbl w6 = Done tt w7 ->
      Z.to_nat (e_shnum hdr - 1) = (a + S b)%nat ->
      relocate_sections sechdrs symindex a 1 (err_garbage o) w7
        = Done false w8 ->
      nth_error sechdrs (1 + a) = Some rs ->
      sh_type rs = SHT_REL ->
      Z.to_nat (sh_size rs / sizeof_Rel) = (j + S n)%nat ->
      do_relocate_from j 0 sechdrs symindex (1 + a) w8 = Done 0 w9 ->
      nth_error sechdrs (Z.to_nat (sh_info rs)) = Some ts ->
      load32 (heap w9)
             (ptr_add (sh_addr rs) (sizeof_Rel * Z.of_nat j + r_offset_off))
        = Some r_offset ->
      load32 (heap w9)
             (ptr_add (sh_addr rs) (sizeof_Rel * Z.of_nat j + r_info_off))
        = Some r_info ->
      ELF32_R_TYPE r_info <> R_386_32 ->
      ELF32_R_TYPE r_info <> R_386_PC32 ->
      free_info si
        (log (EvError (UnsupportedRelocation (ELF32_R_TYPE r_info))) w9)
        = Done tt w10 ->
      load_library SOINFO_NAME_LEN fs resolve_symbol o name w
      = Done None (log EvClose (set_openfile None w10))).
Proof.
  intros Hopen Hhdr Halloc Htab Hcoll Hcalloc Hload Hsym.
  pose proof (load_library_to_symbols o name w w1 w2 w3 w4 w5 w6 hdr si sechdrs
                shstrtbl totalsize symindex q q' Hopen Hhdr Halloc Htab Hcoll
                Hcalloc Hload) as Hstart.
  split.
  - intros j n w7 st_name nm Hnum Hpre Hndx Hname Hstr Hres.
    rewrite Hstart. apply bind_Exited.
    unfold update_symbols. rewrite Hsym. cbv zeta. rewrite Hnum.
    rewrite update_symbols_from_app.
    rewrite (bind_Done _ _ _ _ _ Hpre).
    cbn [update_symbols_from]. apply bind_Exited.
    now apply (update_symbol_miss sechdrs _ shstrtbl _ w7 st_name nm).
  - intros a b j n rs ts w7 w8 w9 w10 r_offset r_info
           Hupd Hnum Hpre Hrs Hty Hcnt Hdo Hts Hoff Hinfo Hk1 Hk2 Hfree.
    rewrite Hstart. rewrite (bind_Done _ _ _ _ _ Hupd). rewrite Hnum.
    destruct (relocate_sections_app sechdrs symindex a (S b) 1
                (err_garbage o) w7 w8 Hpre) as [err' Happ].
    unfold bind at 1. rewrite Happ.
    cbn [relocate_sections]. rewrite Hrs, Hty, Z.eqb_refl.
    unfold bind at 1. unfold do_relocate. rewrite Hrs, Hcnt.
    rewrite (do_relocate_from_app j (S n) 0 _ _ _ _ _ Hdo).
    cbn [do_relocate_from]. unfold bind at 1.
    rewrite (relocate_entry_unsupported sechdrs symindex (1 + a)
               (0 + Z.of_nat j) w9 rs ts symsec r_offset r_info
               Hrs Hts Hsym Hoff Hinfo Hk1 Hk2).
    change (-1 =? 0) with false. cbv beta iota. unfold ret at 1.
    cbv beta iota. change (negb (-1 =? 0)) with true. cbv beta iota.
    unfold ret at 1. unfold goto_fail. rewrite (bind_Done _ _ _ _ _ Hfree).
    reflexivity.
Qed.

End HardFailure.

(** The two ways: at [Sample.obj_undef], whose symbol 1 is undefined,
    with a lookup that returns NULL, and at [Sample.obj_badrel], whose
    relocation entry has kind 3. *)
Lemma load_library_hard_failure_witness :
  (exists w',
      Sample.load Sample.obj_undef 4096 (initial_world Sample.no_mem)
      = Exited (-1) w') /\
  (exists w',
      Sample.load Sample.obj_badrel 4096 (initial_world Sample.no_mem)
      = Done None w').
Proof.
  split.
  - set (w6 := Sample.step_load Sample.obj_undef Sample.undef_sechdrs
                 Sample.shstrtab_undef 32).
    exists (log (EvError (UnknownSymbol [46; 115; 121; 109; 116; 97; 98])) w6).
    refine (proj1 (load_library_hard_failure Sample.SOINFO_NAME_LEN
                     (Sample.one_file "x" Sample.obj_undef) Sample.no_symbols
                     (Sample.oracle_at 4096) "x"%string
                     (initial_world Sample.no_mem)
                     (Sample.step_open Sample.obj_undef)
                     (Sample.step_header Sample.obj_undef)
                     (Sample.step_alloc Sample.obj_undef)
                     (Sample.step_tables Sample.obj_undef)
                     (Sample.step_calloc Sample.obj_undef 32)
                     w6 (firstn 52 Sample.obj_undef) 0%nat
                     Sample.undef_sechdrs Sample.shstrtab_undef 32 1%nat
                     4096 (4096 + 32 + 19)
                     (mkShdr 1 SHT_SYMTAB 0 4096 52 32 0 1 4 16)
                     _ _ _ _ _ _ _ _)
                  0%nat 0%nat w6 1 [46; 115; 121; 109; 116; 97; 98]
                  _ _ _ _ _ _);
      vm_compute; reflexivity.
  - set (w7 := Sample.step_symbols Sample.obj_badrel Sample.badrel_sechdrs
                 Sample.shstrtab_badrel 48 2).
    set (w10 := world_of (free_info 0
                            (log (EvError (UnsupportedRelocation 3)) w7))
                         w7).
    exists (log EvClose (set_openfile None w10)).
    refine (proj2 (load_library_hard_failure Sample.SOINFO_NAME_LEN
                     (Sample.one_file "x" Sample.obj_badrel) Sample.no_symbols
                     (Sample.oracle_at 4096) "x"%string
                     (initial_world Sample.no_mem)
                     (Sample.step_open Sample.obj_badrel)
                     (Sample.step_header Sample.obj_badrel)
                     (Sample.step_alloc Sample.obj_badrel)
                     (Sample.step_tables Sample.obj_badrel)
                     (Sample.step_calloc Sample.obj_badrel 48)
                     (Sample.step_load Sample.obj_badrel Sample.badrel_sechdrs
                        Sample.shstrtab_badrel 48)
                     (firstn 52 Sample.obj_badrel) 0%nat
                     Sample.badrel_sechdrs Sample.shstrtab_badrel 48 2%nat
                     4096 (4096 + 8 + 32 + 8 + 31)
                     (mkShdr 7 SHT_SYMTAB 0 4104 60 32 0 1 4 16)
                     _ _ _ _ _ _ _ _)
                  2%nat 1%nat 0%nat 0%nat
                  (mkShdr 15 SHT_REL 0 4136 92 8 2 1 4 8)
                  (mkShdr 1 SHT_PROGBITS 6 4096 52 8 0 0 4 0)
                  w7 w7 w7 w10 0 259
                  _ _ _ _ _ _ _ _ _ _ _ _ _);
      try (vm_compute; reflexivity);
      vm_compute; intros H; discriminate H.
Defined.

(** C7, as stated, fails for [Sample.obj_undef], whose symbol 1 is
    undefined and has the name ".symtab" (offset 1 of the string table
    that [load_library] hands to [update_symbols]), loaded with the
    image at 4096, where the header of its symbol table says the table
    is.  Whatever [resolve_symbol] returns for that name, the caller is
    not told of a failure: when the lookup returns NULL the process
    exits with status -1 and [load_library] never returns; when it
    returns an entry, [load_library] returns the descriptor. *)
Lemma unresolved_symbol_counterexample :
  exists nm,
    cstring_at Sample.shstrtab_undef 1 = Some nm /\
    forall rs : list Elf32_Shdr -> list Z -> option dl_symbol,
      match load_library Sample.SOINFO_NAME_LEN
              (Sample.one_file "x" Sample.obj_undef) rs
              (Sample.oracle_at 4096) "x" (initial_world Sample.no_mem) with
      | Exited status w' =>
          rs Sample.undef_sechdrs nm = None /\ status = -1 /\
          hd_error (trace w') = Some (EvError (UnknownSymbol nm))
      | Done (Some si) w' =>
          exists d, rs Sample.undef_sechdrs nm = Some d /\ si = 0%nat
      | _ => False
      end.
Proof.
  exists [46; 115; 121; 109; 116; 97; 98]. split; [reflexivity|].
  intros rs.
  set (w6 := Sample.step_load Sample.obj_undef Sample.undef_sechdrs
               Sample.shstrtab_undef 32).
  rewrite (load_library_to_symbols Sample.SOINFO_NAME_LEN
             (Sample.one_file "x" Sample.obj_undef) rs
             (Sample.oracle_at 4096) "x"%string
             (initial_world Sample.no_mem)
             (Sample.step_open Sample.obj_undef)
             (Sample.step_header Sample.obj_undef)
             (Sample.step_alloc Sample.obj_undef)
             (Sample.step_tables Sample.obj_undef)
             (Sample.step_calloc Sample.obj_undef 32)
             w6 (firstn 52 Sample.obj_undef) 0%nat
             Sample.undef_sechdrs Sample.shstrtab_undef 32 1%nat
             4096 (4096 + 32 + 19))
    by (vm_compute; reflexivity).
  change (update_symbols rs Sample.undef_sechdrs 1 Sample.shstrtab_undef)
    with (update_symbols_from rs 1 1 Sample.undef_sechdrs 4096
            Sample.shstrtab_undef).
  cbn [update_symbols_from].
  assert (Hndx : load16 (heap w6) (ptr_add 4096 (sizeof_Sym * 1 + st_shndx_off))
                 = Some SHN_UNDEF) by (vm_compute; reflexivity).
  assert (Hname : load32 (heap w6) (ptr_add 4096 (sizeof_Sym * 1 + st_name_off))
                  = Some 1) by (vm_compute; reflexivity).
  assert (Hold : load32 (heap w6) (ptr_add 4096 (sizeof_Sym * 1 + st_value_off))
                 = Some 0) by (vm_compute; reflexivity).
  assert (Hstr : cstring_at Sample.shstrtab_undef 1
                 = Some [46; 115; 121; 109; 116; 97; 98]) by reflexivity.
  destruct (rs Sample.undef_sechdrs [46; 115; 121; 109; 116; 97; 98])
    as [d|] eqn:E.
  - destruct (update_symbol_hit rs Sample.undef_sechdrs 4096
                Sample.shstrtab_undef 1 w6 1 _ d 0 Hndx Hname Hstr E Hold)
      as [m' Hhit].
    unfold bind at 1 2. rewrite Hhit. unfold ret at 1.
    change (Z.to_nat (e_shnum (firstn 52 Sample.obj_undef) - 1)) with 2%nat.
    exists d. split; reflexivity.
  - unfold bind at 1 2.
    rewrite (update_symbol_miss rs Sample.undef_sechdrs 4096
               Sample.shstrtab_undef 1 w6 1 _ Hndx Hname Hstr E).
    repeat split.
Qed.
